(** * DocProcAiService: ingestion, linking, search and the background worker

    A shallow embedding of [service/DocProcAiService.py].  The relational
    store behind [self._db_conn] is a record of three tables, each a list of
    rows in insertion order; every method of the service is a function on
    that record.  Python exceptions are values of [exn] carried by the
    [result] monad.  The background worker, its [queue.PriorityQueue] and the
    binary heap of [heapq] that implements it are modelled operation by
    operation, on Python lists read and written by index. *)

From Stdlib Require Import ZArith NArith QArith Lia ZifyNat Ascii.
From stdpp Require Import base tactics option list strings sorting gmap pretty.

Open Scope nat_scope.

(* [lia] on the index arithmetic of the heap: [(pos - 1) / 2]. *)
Ltac Zify.zify_post_hook ::= Z.to_euclidean_division_equations.

(** ** Python exceptions *)

Inductive exn : Type :=
  | IndexError                      (* list index out of range *)
  | KeyError (key : string)         (* missing dict key *)
  | StopIteration                   (* next() on an exhausted generator *)
  | Empty                           (* queue.Empty *)
  | ValueError (msg : string)
  | DatabaseError (msg : string)    (* psycopg error of a rejected statement *)
  | Exception (msg : string).       (* any other failure of a collaborator *)

Inductive result (A : Type) : Type :=
  | Ok (a : A)
  | Raise (e : exn).
Arguments Ok {A} a.
Arguments Raise {A} e.

#[global] Instance result_ret : MRet result := λ A a, Ok a.
#[global] Instance result_bind : MBind result := λ A B f m,
  match m with
  | Ok a => f a
  | Raise e => Raise e
  end.

(** ** The store *)

Definition uuid := N.
Bind Scope N_scope with uuid.
Definition vector := list Q.

(** Table [documents]. *)
Record documents_row := {
  doc_id : uuid;
  doc_text : string;
  doc_media_record : uuid;
  doc_page : Z;
  doc_embedding : vector }.

(** Table [videos]. *)
Record videos_row := {
  vid_id : uuid;
  vid_screen_text : string;
  vid_transcript : string;
  vid_media_record : uuid;
  vid_start_time : Z;
  vid_embedding : vector }.

(** Table [media_record_links]. *)
Record media_record_links_row := {
  content_id : uuid;
  segment1_id : uuid;
  segment2_id : uuid }.

(** The database behind [self._db_conn].  [uuid_draws] counts the calls of
    [gen_random_uuid()] made so far by the column defaults. *)
Record database := {
  documents : list documents_row;
  videos : list videos_row;
  media_record_links : list media_record_links_row;
  uuid_draws : nat }.

Definition set_documents (db : database) (d : list documents_row) : database :=
  {| documents := d; videos := videos db;
     media_record_links := media_record_links db; uuid_draws := uuid_draws db |}.
Definition set_videos (db : database) (v : list videos_row) : database :=
  {| documents := documents db; videos := v;
     media_record_links := media_record_links db; uuid_draws := uuid_draws db |}.
Definition set_media_record_links (db : database) (l : list media_record_links_row)
  : database :=
  {| documents := documents db; videos := videos db;
     media_record_links := l; uuid_draws := uuid_draws db |}.

(** [x = ANY(xs)] of SQL. *)
Definition sql_any (x : uuid) (xs : list uuid) : bool := existsb (N.eqb x) xs.

(** ** Collaborators of the service *)

(** What [get_media_record_type_and_download_url] returns. *)
Record media_record_info := {
  internalDownloadUrl : string;
  type : string }.

(** What the two embedding generators yield per segment. *)
Record pdf_embedding_result := {
  pdf_text : string;
  pdf_page_number : Z;
  pdf_embedding : vector }.
Record video_embedding_result := {
  ve_screen_text : string;
  ve_transcript : string;
  ve_start_time : Z;
  ve_embedding : vector }.

(** The code the service calls but does not define: the media service
    client, the embedding models, the Levenshtein package and the database's
    own functions. *)
Class Collaborators := {
  get_media_record_type_and_download_url : uuid → result media_record_info;
  pdf_generate_embedding : string → result (list pdf_embedding_result);
  video_generate_embeddings : string → result (list video_embedding_result);
  sentence_generate_embedding : string → vector;
  (* Levenshtein.ratio *)
  Levenshtein_ratio : string → string → Q;
  (* the operator <=> of pgvector *)
  cosine_distance : vector → vector → Q;
  (* the n-th value drawn from gen_random_uuid() *)
  gen_random_uuid : nat → uuid }.

(** ** Links *)

(** [create_link_between_media_record_segments]: one INSERT. *)
Definition create_link_between_media_record_segments
    (db : database) (content_id segment_id other_segment_id : uuid) : database :=
  set_media_record_links db
    (media_record_links db ++
       [{| content_id := content_id;
           segment1_id := segment_id;
           segment2_id := other_segment_id |}]).

(** The WHERE clause of the existence query. *)
Definition link_connects (id1 id2 : uuid) (l : media_record_links_row) : bool :=
  (N.eqb (segment1_id l) id1 && N.eqb (segment2_id l) id2)
  || (N.eqb (segment1_id l) id2 && N.eqb (segment2_id l) id1).

(** [does_link_between_media_record_segments_exist]: SELECT EXISTS. *)
Definition does_link_between_media_record_segments_exist
    (db : database) (segment_id other_segment_id : uuid) : bool :=
  existsb (link_connects segment_id other_segment_id) (media_record_links db).

(** [delete_entries_of_media_record]: three DELETE statements.  The first
    compares both segment columns of a link with the media record id. *)
Definition delete_entries_of_media_record (db : database) (media_record_id : uuid)
  : database :=
  let db1 :=
    set_media_record_links db
      (filter (λ l, ¬ (segment1_id l = media_record_id
                       ∨ segment2_id l = media_record_id))
              (media_record_links db)) in
  let db2 :=
    set_documents db1
      (filter (λ d, doc_media_record d ≠ media_record_id) (documents db1)) in
  set_videos db2
    (filter (λ v, vid_media_record v ≠ media_record_id) (videos db2)).

(** Number of link rows joining an unordered pair of segment ids. *)
Definition links_between (db : database) (id1 id2 : uuid) : nat :=
  length (filter (λ l, link_connects id1 id2 l = true) (media_record_links db)).

(** The invariant of the data model: no two link rows join the same
    unordered pair of segments. *)
Definition no_duplicate_links (db : database) : Prop :=
  ∀ id1 id2, links_between db id1 id2 ≤ 1.

(** The ids of the segments the store holds. *)
Definition segment_ids (db : database) : list uuid :=
  (doc_id <$> documents db) ++ (vid_id <$> videos db).

(** The segment [id] is a row of media record [media_record], in either
    table. *)
Definition segment_of_media_record (db : database) (id media_record : uuid) : Prop :=
  (∃ d, d ∈ documents db ∧ doc_id d = id ∧ doc_media_record d = media_record)
  ∨ (∃ v, v ∈ videos db ∧ vid_id v = id ∧ vid_media_record v = media_record).

(** ** Rows handed to Python

    The connection is opened with [row_factory=dict_row]: every fetched row
    is a dict from column names to values. *)

Inductive value : Type :=
  | VNone
  | VUuid (u : uuid)
  | VInt (z : Z)
  | VStr (s : string)
  | VFloat (q : Q).

#[global] Instance Q_eq_dec : EqDecision Q.
Proof. solve_decision. Defined.
#[global] Instance value_eq_dec : EqDecision value.
Proof. solve_decision. Defined.

Abbreviation dict := (gmap string value).

(** [x[key]] *)
Definition getitem (x : dict) (key : string) : result value :=
  match x !! key with
  | Some v => Ok v
  | None => Raise (KeyError key)
  end.

(** [del x[key]] *)
Definition delitem (x : dict) (key : string) : result dict :=
  match x !! key with
  | Some _ => Ok (delete key x)
  | None => Raise (KeyError key)
  end.

Definition of_int (z : option Z) : value := from_option VInt VNone z.
Definition of_text (s : option string) : value := from_option VStr VNone s.

Inductive source := document | video.
Definition source_literal (s : source) : string :=
  match s with document => "document" | video => "video" end.

(** The per-row step shared by [get_media_record_links_for_content] and
    [semantic_search]: drop the columns that do not belong to the row's
    source. *)
Definition drop_foreign_columns (x : dict) : result dict :=
  src ← getitem x "source";
  if decide (src = VStr "document") then
    x ← delitem x "startTime";
    x ← delitem x "screenText";
    delitem x "transcript"
  else if decide (src = VStr "video") then
    x ← delitem x "page";
    delitem x "text"
  else Ok x.

Section Service.
Context `{Collaborators}.

(** ** The linker: [enqueue_generate_content_media_record_links]

    A row of the linker's query: the columns [id], [mediaRecordId],
    [source], [page], [startTime] and [text], the last being [text] of a
    document and [screen_text] of a video. *)
Record link_query_row := {
  lq_id : uuid;
  lq_mediaRecordId : uuid;
  lq_source : source;
  lq_page : option Z;
  lq_startTime : option Z;
  lq_text : string }.

Definition link_document_result (d : documents_row) : link_query_row :=
  {| lq_id := doc_id d; lq_mediaRecordId := doc_media_record d;
     lq_source := document; lq_page := Some (doc_page d);
     lq_startTime := None; lq_text := doc_text d |}.

Definition link_video_result (v : videos_row) : link_query_row :=
  {| lq_id := vid_id v; lq_mediaRecordId := vid_media_record v;
     lq_source := video; lq_page := None;
     lq_startTime := Some (vid_start_time v); lq_text := vid_screen_text v |}.

(** [document_results UNION ALL video_results], each restricted to
    [media_record = ANY(mediaRecordIds)]. *)
Definition link_query (db : database) (media_record_ids : list uuid)
  : list link_query_row :=
  (link_document_result <$>
     filter (λ d, sql_any (doc_media_record d) media_record_ids = true) (documents db))
  ++ (link_video_result <$>
     filter (λ v, sql_any (vid_media_record v) media_record_ids = true) (videos db)).

(** [media_records_segments]: a dict from media record id to the list of its
    rows, kept in insertion order, which is the order [items()] yields. *)
Definition segments_dict := list (uuid * list link_query_row).

(** [if k not in d: d[k] = []] followed by [d[k].append(r)]. *)
Fixpoint dict_append (d : segments_dict) (k : uuid) (r : link_query_row)
  : segments_dict :=
  match d with
  | [] => [(k, [r])]
  | (k', rs) :: d' =>
      if N.eqb k' k then (k', rs ++ [r]) :: d'
      else (k', rs) :: dict_append d' k r
  end.

Definition group_by_media_record (query_result : list link_query_row)
  : segments_dict :=
  foldl (λ d r, dict_append d (lq_mediaRecordId r) r) [] query_result.

(** A row sits in the dict under its own media record id. *)
Definition in_dict (d : segments_dict) (r : link_query_row) : Prop :=
  ∃ segments, (lq_mediaRecordId r, segments) ∈ d ∧ r ∈ segments.

(** Every list of the dict holds rows of its key that satisfy [P]. *)
Definition dict_all (P : link_query_row → Prop)
    (d : segments_dict) : Prop :=
  ∀ k segments r, (k, segments) ∈ d → r ∈ segments → lq_mediaRecordId r = k ∧ P r.

(** The body of the innermost loop, for one [segment] and one
    [other_segment]. *)
Definition link_segments (content_id : uuid) (segment other_segment : link_query_row)
    (db : database) : database :=
  if does_link_between_media_record_segments_exist db
       (lq_id segment) (lq_id other_segment)
  then db
  else
    let levenshtein_ratio :=
      Levenshtein_ratio (lq_text segment) (lq_text other_segment) in
    if negb (Qle_bool levenshtein_ratio (9 # 10))
    then create_link_between_media_record_segments db content_id
           (lq_id segment) (lq_id other_segment)
    else db.

(** The loop over the other media records, for one [segment] of
    [media_record_id]. *)
Definition link_segment_to_others (content_id : uuid)
    (media_records_segments : segments_dict)
    (media_record_id : uuid) (segment : link_query_row) (db : database) : database :=
  foldl (λ db '(other_media_record_id, other_segments),
           if N.eqb other_media_record_id media_record_id then db
           else foldl (λ db other_segment,
                         link_segments content_id segment other_segment db)
                  db other_segments)
        db media_records_segments.

(** [generate_content_media_record_links_task], which
    [enqueue_generate_content_media_record_links] calls on the spot. *)
Definition generate_content_media_record_links_task
    (content_id : uuid) (media_record_ids : list uuid) (db : database) : database :=
  let query_result := link_query db media_record_ids in
  let media_records_segments := group_by_media_record query_result in
  foldl (λ db '(media_record_id, segments),
           foldl (λ db segment,
                    link_segment_to_others content_id media_records_segments
                      media_record_id segment db)
                 db segments)
        db media_records_segments.

(** [enqueue_generate_content_media_record_links] runs the task before it
    returns; the [put] on the queue is commented out. *)
Definition enqueue_generate_content_media_record_links
    (content_id : uuid) (media_record_ids : list uuid) (db : database) : database :=
  generate_content_media_record_links_task content_id media_record_ids db.

(** The pairs [(segment, other_segment)] the four nested loops visit, in
    order. *)
Definition candidate_pairs (media_records_segments : segments_dict)
  : list (link_query_row * link_query_row) :=
  '(media_record_id, segments) ← media_records_segments;
  segment ← segments;
  '(other_media_record_id, other_segments) ← media_records_segments;
  if N.eqb other_media_record_id media_record_id then []
  else other_segment ← other_segments; [(segment, other_segment)].

Definition link_pair (content_id : uuid) (db : database)
    (p : link_query_row * link_query_row) : database :=
  link_segments content_id p.1 p.2 db.

(** ** [get_media_record_links_for_content] *)

(** A row of the [results] CTE of [get_media_record_links_for_content]. *)
Record segment_row := {
  seg_id : uuid;
  seg_mediaRecordId : uuid;
  seg_source : source;
  seg_page : option Z;
  seg_startTime : option Z;
  seg_text : option string;
  seg_screenText : option string;
  seg_transcript : option string }.

Definition segment_document_result (d : documents_row) : segment_row :=
  {| seg_id := doc_id d; seg_mediaRecordId := doc_media_record d;
     seg_source := document; seg_page := Some (doc_page d); seg_startTime := None;
     seg_text := Some (doc_text d); seg_screenText := None; seg_transcript := None |}.

Definition segment_video_result (v : videos_row) : segment_row :=
  {| seg_id := vid_id v; seg_mediaRecordId := vid_media_record v;
     seg_source := video; seg_page := None;
     seg_startTime := Some (vid_start_time v); seg_text := None;
     seg_screenText := Some (vid_screen_text v);
     seg_transcript := Some (vid_transcript v) |}.

Definition segment_dict_row (r : segment_row) : dict :=
  <["id" := VUuid (seg_id r)]>
  (<["mediaRecordId" := VUuid (seg_mediaRecordId r)]>
  (<["source" := VStr (source_literal (seg_source r))]>
  (<["page" := of_int (seg_page r)]>
  (<["startTime" := of_int (seg_startTime r)]>
  (<["text" := of_text (seg_text r)]>
  (<["screenText" := of_text (seg_screenText r)]>
  (<["transcript" := of_text (seg_transcript r)]> ∅))))))).

(** The segments whose [id = ANY(segmentIds)]: [document_results UNION ALL
    video_results]. *)
Definition segment_rows (db : database) (segment_ids : list uuid) : list segment_row :=
  (segment_document_result <$>
     filter (λ d, sql_any (doc_id d) segment_ids = true) (documents db))
  ++ (segment_video_result <$>
     filter (λ v, sql_any (vid_id v) segment_ids = true) (videos db)).

Definition segments_query (db : database) (segment_ids : list uuid) : list dict :=
  segment_dict_row <$> segment_rows db segment_ids.

(** What [drop_foreign_columns] leaves of a fetched segment. *)
Definition normalized_segment (r : segment_row) : dict :=
  match seg_source r with
  | document =>
      delete "transcript" (delete "screenText" (delete "startTime" (segment_dict_row r)))
  | video => delete "text" (delete "page" (segment_dict_row r))
  end.

(** [next(x for x in result_segments if x["id"] == segment_id)] *)
Fixpoint next_with_id (result_segments : list dict) (segment_id : uuid) : result dict :=
  match result_segments with
  | [] => Raise StopIteration
  | x :: rest =>
      i ← getitem x "id";
      if decide (i = VUuid segment_id) then Ok x else next_with_id rest segment_id
  end.

Record segment_link := {
  segment1 : dict;
  segment2 : dict }.

Definition get_media_record_links_for_content (db : database) (content : uuid)
  : result (list segment_link) :=
  let result := filter (λ l, content_id l = content) (media_record_links db) in
  let all_segment_ids :=
    foldl (λ ids l, ids ++ [segment1_id l] ++ [segment2_id l]) [] result in
  result_segments ← mapM drop_foreign_columns (segments_query db all_segment_ids);
  mapM (λ l,
          s1 ← next_with_id result_segments (segment1_id l);
          s2 ← next_with_id result_segments (segment2_id l);
          Ok {| segment1 := s1; segment2 := s2 |})
       result.

(** ** [semantic_search] *)

(** A row of the [results] CTE of [semantic_search]. *)
Record search_row := {
  sr_mediaRecordId : uuid;
  sr_source : source;
  sr_page : option Z;
  sr_startTime : option Z;
  sr_text : option string;
  sr_screenText : option string;
  sr_transcript : option string;
  sr_score : Q }.

Definition search_document_result (query_embedding : vector) (d : documents_row)
  : search_row :=
  {| sr_mediaRecordId := doc_media_record d; sr_source := document;
     sr_page := Some (doc_page d); sr_startTime := None;
     sr_text := Some (doc_text d); sr_screenText := None; sr_transcript := None;
     sr_score := cosine_distance (doc_embedding d) query_embedding |}.

Definition search_video_result (query_embedding : vector) (v : videos_row)
  : search_row :=
  {| sr_mediaRecordId := vid_media_record v; sr_source := video;
     sr_page := None; sr_startTime := Some (vid_start_time v);
     sr_text := None; sr_screenText := Some (vid_screen_text v);
     sr_transcript := Some (vid_transcript v);
     sr_score := cosine_distance (vid_embedding v) query_embedding |}.

Definition search_dict_row (r : search_row) : dict :=
  <["mediaRecordId" := VUuid (sr_mediaRecordId r)]>
  (<["source" := VStr (source_literal (sr_source r))]>
  (<["page" := of_int (sr_page r)]>
  (<["startTime" := of_int (sr_startTime r)]>
  (<["text" := of_text (sr_text r)]>
  (<["screenText" := of_text (sr_screenText r)]>
  (<["transcript" := of_text (sr_transcript r)]>
  (<["score" := VFloat (sr_score r)]> ∅))))))).

(** What [drop_foreign_columns] leaves of a search row. *)
Definition normalized_search_row (r : search_row) : dict :=
  match sr_source r with
  | document =>
      delete "transcript" (delete "screenText" (delete "startTime" (search_dict_row r)))
  | video => delete "text" (delete "page" (search_dict_row r))
  end.

(** The WHERE clause of both halves of the search query. *)
Definition search_filter (blacklist whitelist : list uuid) (media_record : uuid) : bool :=
  sql_any media_record whitelist && negb (sql_any media_record blacklist).

(** [results]: the rows the ORDER BY and LIMIT are applied to. *)
Definition search_pool (db : database) (query_embedding : vector)
    (media_record_blacklist media_record_whitelist : list uuid) : list search_row :=
  (search_document_result query_embedding <$>
     filter (λ d, search_filter media_record_blacklist media_record_whitelist
                    (doc_media_record d) = true) (documents db))
  ++ (search_video_result query_embedding <$>
     filter (λ v, search_filter media_record_blacklist media_record_whitelist
                    (vid_media_record v) = true) (videos db)).

(** ORDER BY score *)
Definition score_le (a b : search_row) : Prop := (sr_score a <= sr_score b)%Q.

#[global] Instance score_le_dec : RelDecision score_le.
Proof.
  intros a b. unfold score_le.
  destruct (Qle_bool (sr_score a) (sr_score b)) eqn:E.
  - left. by apply Qle_bool_iff.
  - right. intros Hle. apply Qle_bool_iff in Hle. congruence.
Defined.

Record search_result := {
  score : value;
  mediaRecordSegment : dict }.

(** [count] is a Python [int], of any size; the LIMIT it is bound to is a
    [bigint], and a count outside its range is refused before the one below
    zero is.  ORDER BY leaves the order of rows of equal score open;
    [merge_sort] settles it one way, and no statement below depends on
    which. *)
Definition semantic_search (db : database) (query_text : string) (count : Z)
    (media_record_blacklist media_record_whitelist : list uuid)
  : result (list search_result) :=
  let query_embedding := sentence_generate_embedding query_text in
  let results :=
    search_pool db query_embedding media_record_blacklist media_record_whitelist in
  if decide (count < - 2 ^ 63 ∨ 2 ^ 63 ≤ count)%Z
  then Raise (DatabaseError "bigint out of range")
  else if decide (count < 0)%Z then Raise (DatabaseError "LIMIT must not be negative")
  else
    let query_result :=
      search_dict_row <$> take (Z.to_nat count) (merge_sort score_le results) in
    query_result ← mapM drop_foreign_columns query_result;
    mapM (λ result,
            score ← getitem result "score";
            Ok {| score := score; mediaRecordSegment := result |})
         query_result.

(** ** [enqueue_ingest_media_record_task] *)

(** What the two INSERTs are refused for: psycopg sends no [str] with a NUL
    in it, a column declared [int] holds 32 bits, and one declared
    [vector(1024)] vectors of that dimension only.  The message is the one
    PostgreSQL gives for a dimension between 1 and 16000. *)
Fixpoint contains_NUL (s : string) : bool :=
  match s with
  | EmptyString => false
  | String a s => Ascii.eqb a "000" || contains_NUL s
  end.

Definition check_text (s : string) : result unit :=
  if contains_NUL s
  then Raise (DatabaseError "PostgreSQL text fields cannot contain NUL (0x00) bytes")
  else Ok ().

Definition check_int (n : Z) : result unit :=
  if decide (- 2 ^ 31 ≤ n < 2 ^ 31)%Z then Ok ()
  else Raise (DatabaseError "integer out of range").

Definition check_vector (dimensions : nat) (v : vector) : result unit :=
  if decide (length v = dimensions) then Ok ()
  else Raise (DatabaseError ("expected " +:+ pretty dimensions
                             +:+ " dimensions, not " +:+ pretty (length v))).

(** INSERT INTO documents; [id] takes its default, a uuid drawn by
    [gen_random_uuid()] and taken to be new to the table.  A refused INSERT
    leaves the store as it was. *)
Definition insert_document (media_record_id : uuid) (db : database)
    (embedding_result : pdf_embedding_result) : result database :=
  check_text (pdf_text embedding_result);;
  check_int (pdf_page_number embedding_result);;
  check_vector 1024 (pdf_embedding embedding_result);;
  Ok {| documents := documents db ++
          [{| doc_id := gen_random_uuid (uuid_draws db);
              doc_text := pdf_text embedding_result;
              doc_media_record := media_record_id;
              doc_page := pdf_page_number embedding_result;
              doc_embedding := pdf_embedding embedding_result |}];
        videos := videos db;
        media_record_links := media_record_links db;
        uuid_draws := S (uuid_draws db) |}.

(** INSERT INTO videos; [id] takes its default, as above. *)
Definition insert_video (media_record_id : uuid) (db : database)
    (embedding_result : video_embedding_result) : result database :=
  check_text (ve_screen_text embedding_result);;
  check_text (ve_transcript embedding_result);;
  check_int (ve_start_time embedding_result);;
  check_vector 1024 (ve_embedding embedding_result);;
  Ok {| documents := documents db;
        videos := videos db ++
          [{| vid_id := gen_random_uuid (uuid_draws db);
              vid_screen_text := ve_screen_text embedding_result;
              vid_transcript := ve_transcript embedding_result;
              vid_media_record := media_record_id;
              vid_start_time := ve_start_time embedding_result;
              vid_embedding := ve_embedding embedding_result |}];
        media_record_links := media_record_links db;
        uuid_draws := S (uuid_draws db) |}.

(** [for embedding_result in embedding_results: self._db_conn.execute(...)]:
    the connection is in autocommit mode, so when an INSERT raises, the rows
    written before it stay. *)
Fixpoint execute_each {A} (execute : database → A → result database)
    (db : database) (embedding_results : list A) : database * result unit :=
  match embedding_results with
  | [] => (db, Ok ())
  | embedding_result :: embedding_results =>
      match execute db embedding_result with
      | Ok db => execute_each execute db embedding_results
      | Raise e => (db, Raise e)
      end
  end.

(** The embedding results the two INSERTs accept. *)
Definition documents_accepts (e : pdf_embedding_result) : Prop :=
  contains_NUL (pdf_text e) = false
  ∧ (- 2 ^ 31 ≤ pdf_page_number e < 2 ^ 31)%Z
  ∧ length (pdf_embedding e) = 1024.

Definition videos_accepts (e : video_embedding_result) : Prop :=
  contains_NUL (ve_screen_text e) = false
  ∧ contains_NUL (ve_transcript e) = false
  ∧ (- 2 ^ 31 ≤ ve_start_time e < 2 ^ 31)%Z
  ∧ length (ve_embedding e) = 1024.

(** The coroutine [ingest_media_record_task]: the store it leaves and how it
    ends. *)
Definition ingest_media_record_task (media_record_id : uuid) (db : database)
  : database * result unit :=
  match get_media_record_type_and_download_url media_record_id with
  | Raise e => (db, Raise e)
  | Ok media_record =>
      let download_url := internalDownloadUrl media_record in
      let record_type := type media_record in
      if String.eqb record_type "PRESENTATION" || String.eqb record_type "DOCUMENT" then
        match pdf_generate_embedding download_url with
        | Raise e => (db, Raise e)
        | Ok embedding_results =>
            execute_each (insert_document media_record_id) db embedding_results
        end
      else if String.eqb record_type "VIDEO" then
        match video_generate_embeddings download_url with
        | Raise e => (db, Raise e)
        | Ok embedding_results =>
            execute_each (insert_video media_record_id) db embedding_results
        end
      else
        (db, Raise (ValueError
                      ("Asked to ingest unsupported media record type of type "
                       +:+ type media_record)))
  end.

End Service.

(** ** [heapq]: the binary heap under [queue.PriorityQueue]

    The functions of the standard module, on a Python list.  A read
    [heap[i]] raises [IndexError] out of range; every write below follows a
    read of the same or a larger index, so it is in range. *)

Module heapq.
Section heapq.
Context {A : Type} (lt : A → A → bool).

(** [heap[i]] *)
Definition item (heap : list A) (i : nat) : result A :=
  match heap !! i with
  | Some x => Ok x
  | None => Raise IndexError
  end.

(** The [while pos > startpos] loop of [_siftdown].  [fuel] bounds [pos],
    which every iteration decreases; at [fuel = 0] the position is [0] and
    the loop test fails. *)
Fixpoint _siftdown_loop (fuel : nat) (heap : list A) (newitem : A)
    (startpos pos : nat) : result (list A) :=
  match fuel with
  | 0 => Ok (<[pos := newitem]> heap)
  | S fuel =>
      if decide (startpos < pos) then
        let parentpos := (pos - 1) / 2 in          (* (pos - 1) >> 1 *)
        parent ← item heap parentpos;
        if lt newitem parent then
          _siftdown_loop fuel (<[pos := parent]> heap) newitem startpos parentpos
        else Ok (<[pos := newitem]> heap)
      else Ok (<[pos := newitem]> heap)
  end.

Definition _siftdown (heap : list A) (startpos pos : nat) : result (list A) :=
  newitem ← item heap pos;
  _siftdown_loop pos heap newitem startpos pos.

(** The [while childpos < endpos] loop of [_siftup]: it returns the heap and
    the leaf position reached.  [fuel] bounds [endpos - pos], which every
    iteration decreases; at [fuel = 0] the loop test fails. *)
Fixpoint _siftup_loop (fuel : nat) (heap : list A) (endpos pos : nat)
  : result (list A * nat) :=
  match fuel with
  | 0 => Ok (heap, pos)
  | S fuel =>
      let childpos := 2 * pos + 1 in
      if decide (childpos < endpos) then
        let rightpos := childpos + 1 in
        childpos ←
          (if decide (rightpos < endpos) then
             left_child ← item heap childpos;
             right_child ← item heap rightpos;
             Ok (if negb (lt left_child right_child) then rightpos else childpos)
           else Ok childpos);
        child ← item heap childpos;
        _siftup_loop fuel (<[pos := child]> heap) endpos childpos
      else Ok (heap, pos)
  end.

Definition _siftup (heap : list A) (pos : nat) : result (list A) :=
  let endpos := length heap in
  let startpos := pos in
  newitem ← item heap pos;
  '(heap, pos) ← _siftup_loop (endpos - pos) heap endpos pos;
  let heap := <[pos := newitem]> heap in
  _siftdown heap startpos pos.

Definition heappush (heap : list A) (x : A) : result (list A) :=
  let heap := heap ++ [x] in
  _siftdown heap 0 (length heap - 1).

Definition heappop (heap : list A) : result (A * list A) :=
  match last heap with
  | None => Raise IndexError                       (* heap.pop() of [] *)
  | Some lastelt =>
      let heap := removelast heap in
      match heap with
      | _ :: _ =>
          returnitem ← item heap 0;
          let heap := <[0 := lastelt]> heap in
          heap ← _siftup heap 0;
          Ok (returnitem, heap)
      | [] => Ok (lastelt, heap)
      end
  end.

End heapq.

(** The heap invariant of [heapq], for items ordered by [key]: no item is
    smaller than its parent. *)
Section invariant.
Context {A : Type} (key : A → Z).

Definition parent_le (h : list A) (i : nat) : Prop :=
  ∀ x p, h !! i = Some x → h !! ((i - 1) / 2) = Some p → (key p ≤ key x)%Z.

Definition is_heap (h : list A) : Prop := ∀ i, 0 < i → parent_le h i.

(** A heap but for the item at [pos], which may be smaller than its
    parent: the state of [_siftdown]. *)
Definition sift_hole (h : list A) (pos : nat) : Prop :=
  pos < length h ∧
  (∀ i, 0 < i → i ≠ pos → parent_le h i) ∧
  (∀ c x p, 0 < pos → 0 < c → (c - 1) / 2 = pos →
     h !! c = Some x → h !! ((pos - 1) / 2) = Some p → (key p ≤ key x)%Z).

(** A heap but for the item at [pos], which may be larger than its
    children: the state of the first loop of [_siftup]. *)
Definition sift_gap (h : list A) (pos : nat) : Prop :=
  pos < length h ∧
  (∀ i, 0 < i → i ≠ pos → (i - 1) / 2 ≠ pos → parent_le h i) ∧
  (∀ c x p, 0 < pos → 0 < c → (c - 1) / 2 = pos →
     h !! c = Some x → h !! ((pos - 1) / 2) = Some p → (key p ≤ key x)%Z).
End invariant.

End heapq.

(** ** The background worker *)

(** The closure the service puts on the queue, by what it captures: the
    coroutine function [ingest_media_record_task] of one media record.  (The
    [put] of the linking task is commented out in the source.) *)
Inductive background_task : Type :=
  | IngestMediaRecord (media_record_id : uuid).

Record BackgroundTaskItem := {
  task : background_task;
  priority : Z }.

#[global] Instance background_task_eq_dec : EqDecision background_task.
Proof. solve_decision. Defined.
#[global] Instance BackgroundTaskItem_eq_dec : EqDecision BackgroundTaskItem.
Proof. solve_decision. Defined.

Definition priority_le (a b : BackgroundTaskItem) : Prop :=
  (priority a ≤ priority b)%Z.

(** [BackgroundTaskItem.__lt__] *)
Definition BackgroundTaskItem_lt (self other : BackgroundTaskItem) : bool :=
  (priority self <? priority other)%Z.

(** [queue.PriorityQueue]: [put] is [heappush]; [get] raises [Empty] on an
    empty queue once its timeout has passed and is [heappop] otherwise. *)
Module PriorityQueue.
Definition t := list BackgroundTaskItem.
Definition put (q : t) (x : BackgroundTaskItem) : result t :=
  heapq.heappush BackgroundTaskItem_lt q x.
Definition get (q : t) : result (BackgroundTaskItem * t) :=
  if decide (length q = 0) then Raise Empty
  else heapq.heappop BackgroundTaskItem_lt q.
End PriorityQueue.

Inductive thread_state : Type :=
  | Running
  | Returned                (* the loop test failed *)
  | Died (e : exn).         (* an exception left the thread's target *)

(** The service as the worker thread and its callers see it; [executed]
    records each task the worker ran and how it ended, oldest first. *)
Record service := {
  _db_conn : database;
  _background_task_queue : PriorityQueue.t;
  _keep_background_task_thread_alive : bool;
  _background_task_thread : thread_state;
  executed : list (BackgroundTaskItem * result unit) }.

(** The queue of the service is a heap by priority. *)
Definition queue_ok (s : service) : Prop :=
  heapq.is_heap priority (_background_task_queue s).

(** In a log of executed tasks, whatever has priority 1 comes after [t1] has
    run and returned. *)
Definition priority_order (t1 : BackgroundTaskItem)
    (log : list (BackgroundTaskItem * result unit)) : Prop :=
  ∀ pre x o post, log = pre ++ (x, o) :: post → priority x = 1%Z → (t1, Ok ()) ∈ pre.

Section Worker.
Context `{Collaborators}.

(** [asyncio.run(background_task_item.task())] *)
Definition run_task (t : background_task) (db : database) : database * result unit :=
  match t with
  | IngestMediaRecord media_record_id => ingest_media_record_task media_record_id db
  end.

(** [DocProcAiService.__init__] on a database that holds the three tables. *)
Definition init (db : database) : service :=
  {| _db_conn := db;
     _background_task_queue := [];
     _keep_background_task_thread_alive := true;
     _background_task_thread := Running;
     executed := [] |}.

Definition set_thread (s : service) (st : thread_state) : service :=
  {| _db_conn := _db_conn s;
     _background_task_queue := _background_task_queue s;
     _keep_background_task_thread_alive := _keep_background_task_thread_alive s;
     _background_task_thread := st;
     executed := executed s |}.

(** One pass through the [while] of [_background_task_runner]: the loop
    test, the [get] and, when an item came out, the task. *)
Definition _background_task_runner (s : service) : service :=
  match _background_task_thread s with
  | Running =>
      if _keep_background_task_thread_alive s then
        match PriorityQueue.get (_background_task_queue s) with
        | Raise Empty => s                                  (* continue *)
        | Raise e => set_thread s (Died e)
        | Ok (background_task_item, task_queue) =>
            let '(db, outcome) := run_task (task background_task_item) (_db_conn s) in
            {| _db_conn := db;
               _background_task_queue := task_queue;
               _keep_background_task_thread_alive :=
                 _keep_background_task_thread_alive s;
               _background_task_thread :=
                 match outcome with
                 | Ok _ => Running                          (* task_done() *)
                 | Raise e => Died e
                 end;
               executed := executed s ++ [(background_task_item, outcome)] |}
        end
      else set_thread s Returned
  | _ => s
  end.

(** [self._background_task_queue.put(item)] on a caller's thread. *)
Definition put_task (s : service) (x : BackgroundTaskItem) : service :=
  match PriorityQueue.put (_background_task_queue s) x with
  | Ok q =>
      {| _db_conn := _db_conn s;
         _background_task_queue := q;
         _keep_background_task_thread_alive := _keep_background_task_thread_alive s;
         _background_task_thread := _background_task_thread s;
         executed := executed s |}
  | Raise _ => s
  end.

Definition enqueue_ingest_media_record_task (s : service) (media_record_id : uuid)
  : service :=
  let priority := 0%Z in
  put_task s {| task := IngestMediaRecord media_record_id; priority := priority |}.

(** What happens to the service, one atomic queue operation at a time: a
    caller puts an item, or the worker makes one pass of its loop. *)
Inductive event : Type :=
  | Put (x : BackgroundTaskItem)
  | Worker.

Definition step (s : service) (e : event) : service :=
  match e with
  | Put x => put_task s x
  | Worker => _background_task_runner s
  end.

Definition run (s : service) (events : list event) : service := foldl step s events.

(** The ways a pass of the worker's loop can go on a queue that is a heap:
    nothing changes, the loop ends, or the item of least priority is taken
    off the queue and its task run. *)
Inductive pass_outcome (s : service) : service → Prop :=
  | pass_idle : pass_outcome s s
  | pass_returned :
      _background_task_thread s = Running →
      _keep_background_task_thread_alive s = false →
      pass_outcome s (set_thread s Returned)
  | pass_task x q db o :
      _background_task_thread s = Running →
      _keep_background_task_thread_alive s = true →
      heapq.is_heap priority q →
      _background_task_queue s ≡ₚ x :: q →
      (∀ y, y ∈ _background_task_queue s → (priority x ≤ priority y)%Z) →
      run_task (task x) (_db_conn s) = (db, o) →
      pass_outcome s
        {| _db_conn := db; _background_task_queue := q;
           _keep_background_task_thread_alive := true;
           _background_task_thread :=
             match o with Ok _ => Running | Raise e => Died e end;
           executed := executed s ++ [(x, o)] |}.

End Worker.

(** ** A small deployment, used by the examples *)

Module example.

(** The unit vector of 1024 dimensions along axis [i]. *)
Definition axis (i : nat) : vector := <[i := 1%Q]> (replicate 1024 0%Q).

(** Record 9 is a quiz, record 20 a video, every other record a document;
    the scorer stands in for [Levenshtein.ratio] (1 on equal texts, 0
    otherwise) and the distance for [<=>] (0 on equal vectors, 1
    otherwise). *)
Definition collaborators : Collaborators := {|
  get_media_record_type_and_download_url := λ media_record_id,
    Ok {| internalDownloadUrl := "http://media/download";
          type := if N.eqb media_record_id 9%N then "QUIZ"
                  else if N.eqb media_record_id 20%N then "VIDEO"
                  else "DOCUMENT" |};
  pdf_generate_embedding := λ _,
    Ok [{| pdf_text := "Gradient descent"; pdf_page_number := 1%Z;
           pdf_embedding := axis 0 |}];
  video_generate_embeddings := λ _,
    Ok [{| ve_screen_text := "Gradient descent";
           ve_transcript := "today we look at gradient descent";
           ve_start_time := 0%Z; ve_embedding := axis 1 |}];
  sentence_generate_embedding := λ _, axis 0;
  Levenshtein_ratio := λ a b, if String.eqb a b then 1%Q else 0%Q;
  cosine_distance := λ u v, if decide (u = v) then 0%Q else 1%Q;
  gen_random_uuid := λ n, N.of_nat (S n) |}.

Definition slide : documents_row :=
  {| doc_id := 1%N; doc_text := "Gradient descent"; doc_media_record := 10%N;
     doc_page := 1%Z; doc_embedding := axis 0 |}.

Definition frame : videos_row :=
  {| vid_id := 2%N; vid_screen_text := "Gradient descent";
     vid_transcript := "today we look at gradient descent";
     vid_media_record := 20%N; vid_start_time := 0%Z;
     vid_embedding := axis 1 |}.

Definition empty_db : database :=
  {| documents := []; videos := []; media_record_links := []; uuid_draws := 0 |}.

(** Document 10 and video 20 ingested, nothing linked yet. *)
Definition ingested_db : database :=
  {| documents := [slide]; videos := [frame]; media_record_links := [];
     uuid_draws := 2 |}.

(** The same store after content 100 has been linked. *)
Definition linked_db : database :=
  {| documents := [slide]; videos := [frame];
     media_record_links :=
       [{| content_id := 100%N; segment1_id := 1%N; segment2_id := 2%N |}];
     uuid_draws := 2 |}.

Definition ingest (media_record_id : uuid) : BackgroundTaskItem :=
  {| task := IngestMediaRecord media_record_id; priority := 0%Z |}.

(** An item of priority 1, the priority the source reserves for linking. *)
Definition late (media_record_id : uuid) : BackgroundTaskItem :=
  {| task := IngestMediaRecord media_record_id; priority := 1%Z |}.

End example.

(** ** Notions used in the statements about linking and search *)

(** A visited pair is settled in a store: its two segments are linked, or
    their texts are not similar enough to be. *)
Definition settled `{Collaborators} (db : database)
    (p : link_query_row * link_query_row) : Prop :=
  does_link_between_media_record_segments_exist db (lq_id p.1) (lq_id p.2) = true
  ∨ negb (Qle_bool (Levenshtein_ratio (lq_text p.1) (lq_text p.2)) (9 # 10)) = false.

(** The element of the list [semantic_search] returns for a fetched row. *)
Definition search_result_of_row (r : search_row) : search_result :=
  {| score := VFloat (sr_score r); mediaRecordSegment := normalized_search_row r |}.

(** The keys a returned segment dict has and lacks, by its source. *)
Definition document_shaped (x : dict) : Prop :=
  x !! "source" = Some (VStr "document")
  ∧ is_Some (x !! "page") ∧ is_Some (x !! "text")
  ∧ x !! "startTime" = None ∧ x !! "screenText" = None ∧ x !! "transcript" = None.

Definition video_shaped (x : dict) : Prop :=
  x !! "source" = Some (VStr "video")
  ∧ is_Some (x !! "startTime") ∧ is_Some (x !! "screenText")
  ∧ is_Some (x !! "transcript")
  ∧ x !! "page" = None ∧ x !! "text" = None.

(** ** [PdfProcessor.process_from_io]

    [pdf2image], [pypdf] and tika are outside the repository: the thumbnails
    they render and the content tika returns for each page are arguments, and
    so is [str.strip].  [PageData] and [DocumentData] are declared in
    [fileextractlib/DocumentData.py]; their fields are the positional
    arguments of the two calls. *)
Module PdfProcessor.
Section PdfProcessor.
Context {image : Type} (strip : string → string).

Record PageData := {
  page_number : nat;
  page_text : string;
  page_image : image;
  page_embedding : option vector }.

(** [DocumentData(pages, [])]; the second argument is the empty list. *)
Record DocumentData := { pages : list PageData }.

(** [page_images[page_index]] *)
Definition getitem_image (page_images : list image) (page_index : nat) : result image :=
  match page_images !! page_index with
  | Some page_image => Ok page_image
  | None => Raise IndexError
  end.

(** The body of the loop over the pages, for the page [page_index] whose
    content tika returned as [content]. *)
Definition process_page (page_images : list image) (pages : list PageData)
    (page_index : nat) (content : option string) : result (list PageData) :=
  match content with
  | None => Ok pages                                        (* continue *)
  | Some page_text =>
      let page_text := strip page_text in
      if decide (page_text = "") then Ok pages              (* continue *)
      else
        page_image ← getitem_image page_images page_index;
        Ok (pages ++ [{| page_number := page_index; page_text := page_text;
                         page_image := page_image; page_embedding := None |}])
  end.

(** [for page_index in range(len(pdf_reader.pages))], from [page_index] on. *)
Fixpoint process_pages (page_images : list image) (page_index : nat)
    (contents : list (option string)) (pages : list PageData)
  : result (list PageData) :=
  match contents with
  | [] => Ok pages
  | content :: contents =>
      pages ← process_page page_images pages page_index content;
      process_pages page_images (S page_index) contents pages
  end.

Definition process_from_io (page_images : list image) (contents : list (option string))
  : result DocumentData :=
  pages ← process_pages page_images 0 contents [];
  Ok {| pages := pages |}.

(** A page of the result comes from the page of its number: its text is the
    stripped content, not empty, and its image the thumbnail of that page. *)
Definition page_of (page_images : list image) (contents : list (option string))
    (p : PageData) : Prop :=
  page_text p ≠ ""
  ∧ page_embedding p = None
  ∧ page_images !! page_number p = Some (page_image p)
  ∧ ∃ content, contents !! page_number p = Some (Some content)
               ∧ page_text p = strip content.

End PdfProcessor.
End PdfProcessor.

(** ** [datetime.timedelta]

    A duration is its total number of microseconds; Python keeps it as days,
    seconds in the day and microseconds in the second, the last two never
    negative, and [str] prints it from those.  The bounds of the type are
    left out: the only sum below adds one microsecond to a duration of zero
    microseconds, which is never the largest one. *)
Module timedelta.
Definition t := Z.

Definition days (d : t) : Z := (d / 86400000000)%Z.
Definition seconds (d : t) : Z := ((d `mod` 86400000000) / 1000000)%Z.
Definition microseconds (d : t) : Z := (d `mod` 1000000)%Z.

(** [timedelta(microseconds=1)] *)
Definition microsecond : t := 1%Z.

Definition digit (n : Z) : ascii := ascii_of_nat (48 + Z.to_nat (n `mod` 10)).

(** ["%02d" % n] for [0 <= n < 100] *)
Definition two_digits (n : Z) : string :=
  String (digit (n / 10)) (String (digit n) "").

(** ["%06d" % n] for [0 <= n < 1000000] *)
Definition six_digits (n : Z) : string :=
  String (digit (n / 100000)) (String (digit (n / 10000))
    (String (digit (n / 1000)) (String (digit (n / 100))
      (String (digit (n / 10)) (String (digit n) ""))))).

(** [timedelta.__str__] *)
Definition str (d : t) : string :=
  let mm := (seconds d / 60)%Z in
  let ss := (seconds d `mod` 60)%Z in
  let hh := (mm / 60)%Z in
  let mm := (mm `mod` 60)%Z in
  let s := pretty hh +:+ ":" +:+ two_digits mm +:+ ":" +:+ two_digits ss in
  let s :=
    if decide (days d = 0%Z) then s
    else pretty (days d) +:+ " day"
         +:+ (if decide (Z.abs (days d) = 1%Z) then "" else "s") +:+ ", " +:+ s in
  if decide (microseconds d = 0%Z) then s
  else s +:+ "." +:+ six_digits (microseconds d).
End timedelta.

(** ** [TranscriptGenerator.process_to_vtt]: the captions

    ffmpeg, whisper and webvtt are outside the repository; the segments
    whisper returns, with their words, are the argument.  The start and end
    of a segment are floats: [timedelta(seconds=...)], which rounds them to
    microseconds, is a parameter, and so is the constructor [Caption], which
    reads the two timestamps it is given and may refuse them. *)
Module TranscriptGenerator.
Section TranscriptGenerator.
Context {float caption : Type} (timedelta_seconds : float → timedelta.t)
        (Caption : string → string → string → result caption).

(** An element of [result["segments"]], transcribed with
    [word_timestamps=True]. *)
Record segment := {
  start : float;
  end_ : float;
  words : list string }.            (* word["word"] for word in segment["words"] *)

(** [if t.microseconds == 0: t = t + timedelta(microseconds=1)] *)
Definition nonzero_microseconds (t : timedelta.t) : timedelta.t :=
  if decide (timedelta.microseconds t = 0%Z) then (t + timedelta.microsecond)%Z else t.

(** [segment_start] and [segment_end] as the caption is given them. *)
Definition segment_times (s : segment) : timedelta.t * timedelta.t :=
  let segment_start := timedelta_seconds (start s) in
  let segment_end := timedelta_seconds (end_ s) in
  (nonzero_microseconds segment_start, nonzero_microseconds segment_end).

(** The three arguments of the call [Caption(...)] for a segment. *)
Definition caption_arguments (s : segment) : string * string * string :=
  let segment_text := foldl (λ text word, text +:+ word) "" (words s) in
  let '(segment_start, segment_end) := segment_times s in
  (timedelta.str segment_start, timedelta.str segment_end, "-" +:+ segment_text).

(** [Caption(str(segment_start), str(segment_end), "-" + segment_text)] *)
Definition new_caption (s : segment) : result caption :=
  let '(segment_start, segment_end, text) := caption_arguments s in
  Caption segment_start segment_end text.

(** The body of the loop over the segments. *)
Definition append_caption (captions : list caption) (s : segment)
  : result (list caption) :=
  caption ← new_caption s;
  Ok (captions ++ [caption]).

(** [for segment in result["segments"]], on the captions appended so far. *)
Fixpoint append_captions (captions : list caption) (segments : list segment)
  : result (list caption) :=
  match segments with
  | [] => Ok captions
  | s :: segments =>
      captions ← append_caption captions s;
      append_captions captions segments
  end.

(** [vtt.captions] after the loop. *)
Definition captions (segments : list segment) : result (list caption) :=
  append_captions [] segments.

End TranscriptGenerator.
End TranscriptGenerator.

(** A timestamp that ends in a dot and the six digits of its fraction of a
    second. *)
Definition is_digit (a : ascii) : Prop := 48 ≤ nat_of_ascii a ≤ 57.

Definition has_fraction (timestamp : string) : Prop :=
  ∃ whole fraction,
    timestamp = whole +:+ "." +:+ fraction
    ∧ String.length fraction = 6
    ∧ Forall is_digit (String.list_ascii_of_string fraction).

(** ** A lecture file, used by the examples

    Three pages, the second without content and the third blank; [strip]
    drops the ASCII whitespace at both ends. *)
Module lecture.

Definition is_space (a : ascii) : bool :=
  bool_decide (a ∈ [" "; "009"; "010"; "011"; "012"; "013"]%char).

Fixpoint lstrip (s : list ascii) : list ascii :=
  match s with
  | a :: s' => if is_space a then lstrip s' else s
  | [] => []
  end.

Definition strip (s : string) : string :=
  String.string_of_list_ascii
    (rev (lstrip (rev (lstrip (String.list_ascii_of_string s))))).

Definition page_images : list string := ["page0.png"; "page1.png"; "page2.png"].

Definition contents : list (option string) :=
  [Some "  Gradient descent  "; None; Some "   "].

(** A store whose only link names frame 2 of video 20 and slide 1 of
    document 10. *)
Definition linked_db : database :=
  {| documents := [example.slide]; videos := [example.frame];
     media_record_links :=
       [{| content_id := 100%N; segment1_id := 2%N; segment2_id := 1%N |}];
     uuid_draws := 2 |}.

(** The collaborators of [example] with another embedding model for PDFs:
    of the three pages it yields, the second has an embedding of 2
    dimensions. *)
Definition page (n : Z) (embedding : vector) : pdf_embedding_result :=
  {| pdf_text := "Gradient descent"; pdf_page_number := n;
     pdf_embedding := embedding |}.

Definition short_embedding : Collaborators := {|
  get_media_record_type_and_download_url :=
    @get_media_record_type_and_download_url example.collaborators;
  pdf_generate_embedding := λ _,
    Ok [page 1 (example.axis 0); page 2 [1%Q; 0%Q]; page 3 (example.axis 2)];
  video_generate_embeddings := @video_generate_embeddings example.collaborators;
  sentence_generate_embedding := @sentence_generate_embedding example.collaborators;
  Levenshtein_ratio := @Levenshtein_ratio example.collaborators;
  cosine_distance := @cosine_distance example.collaborators;
  gen_random_uuid := @gen_random_uuid example.collaborators |}.

(** A service whose flag was cleared while a task was still queued. *)
Definition stopping : service :=
  {| _db_conn := example.empty_db;
     _background_task_queue := [example.ingest 10];
     _keep_background_task_thread_alive := false;
     _background_task_thread := Running;
     executed := [] |}.

End lecture.

(** * Properties *)

(** ** Lists written by index *)

Section list_facts.
Context {A : Type}.
Implicit Types l : list A.

(** Overwriting one cell trades the old item for the new one. *)
Lemma insert_cons_Permutation l i a b :
  l !! i = Some a → a :: <[i:=b]> l ≡ₚ b :: l.
Proof.
  revert i. induction l as [|x l IH]; intros [|i] Hi; simplify_eq/=.
  - apply perm_swap.
  - rewrite (perm_swap x a), (IH _ Hi). apply perm_swap.
Qed.

(** Exchanging two cells permutes the list. *)
Lemma swap_Permutation l i j a b :
  l !! i = Some a → l !! j = Some b → <[j:=a]> (<[i:=b]> l) ≡ₚ l.
Proof.
  intros Hi Hj.
  apply (Permutation_cons_inv (a:=b)).
  destruct (decide (i = j)) as [->|Hne].
  - simplify_eq. rewrite list_insert_insert_eq. by rewrite list_insert_id.
  - rewrite (insert_cons_Permutation (<[i:=b]> l) j b a)
      by (by rewrite list_lookup_insert_ne).
    by apply insert_cons_Permutation.
Qed.

Lemma NoDup_fmap_eq {B} (f : A → B) l x y :
  NoDup (f <$> l) → x ∈ l → y ∈ l → f x = f y → x = y.
Proof.
  induction l as [|z l IH]; intros Hnd Hx Hy Hf; [by apply elem_of_nil in Hx|].
  rewrite fmap_cons in Hnd. apply NoDup_cons in Hnd as [Hz Hnd].
  apply elem_of_cons in Hx as [->|Hx], Hy as [->|Hy]; [done| | |by apply IH].
  - destruct Hz. rewrite Hf. by apply list_elem_of_fmap_2.
  - destruct Hz. rewrite <-Hf. by apply list_elem_of_fmap_2.
Qed.

Lemma length_filter_filter (P Q : A → Prop)
    `{∀ x, Decision (P x)} `{∀ x, Decision (Q x)} l :
  length (filter P (filter Q l)) ≤ length (filter P l).
Proof.
  induction l as [|x l IH]; [done|].
  rewrite (filter_cons Q), (filter_cons P x l).
  destruct (decide (Q x)), (decide (P x));
    rewrite ?filter_cons, ?decide_True, ?decide_False by done; simpl; lia.
Qed.
End list_facts.

(** ** The heap of [heapq]

    [lt] is the [__lt__] of the items; it compares their keys. *)

Section heap_correct.
Import heapq.
Context {A : Type} (lt : A → A → bool) (key : A → Z).
Hypothesis lt_key : ∀ a b, lt a b = (key a <? key b)%Z.
Implicit Types heap h : list A.

Lemma item_lookup h i x : h !! i = Some x → item h i = Ok x.
Proof. unfold item. by intros ->. Qed.

(** The fuel of the two loops is only a bound: any amount that covers the
    distance left gives the same result. *)
Lemma siftdown_loop_fuel fuel1 : ∀ fuel2 heap newitem startpos pos,
  pos ≤ fuel1 → pos ≤ fuel2 →
  _siftdown_loop lt fuel1 heap newitem startpos pos
  = _siftdown_loop lt fuel2 heap newitem startpos pos.
Proof.
  induction fuel1 as [|fuel1 IH]; intros [|fuel2] heap newitem startpos pos H1 H2;
    cbn [_siftdown_loop]; try done.
  - rewrite decide_False by lia. done.
  - rewrite decide_False by lia. done.
  - case_decide; [|done]. destruct (item heap ((pos - 1) / 2)) as [parent|e]; [|done].
    cbn [mbind result_bind]. destruct (lt newitem parent); [|done].
    apply IH; lia.
Qed.

Lemma siftup_loop_fuel fuel1 : ∀ fuel2 heap endpos pos,
  endpos - pos ≤ fuel1 → endpos - pos ≤ fuel2 →
  _siftup_loop lt fuel1 heap endpos pos = _siftup_loop lt fuel2 heap endpos pos.
Proof.
  induction fuel1 as [|fuel1 IH]; intros [|fuel2] heap endpos pos H1 H2;
    cbn [_siftup_loop]; try done.
  - rewrite decide_False by lia. done.
  - rewrite decide_False by lia. done.
  - case_decide as Hchild; [|done].
    assert (∀ childpos, pos < childpos →
              (child ← item heap childpos;
               _siftup_loop lt fuel1 (<[pos:=child]> heap) endpos childpos)
              = (child ← item heap childpos;
                 _siftup_loop lt fuel2 (<[pos:=child]> heap) endpos childpos)) as Hnext.
    { intros childpos Hlt. destruct (item heap childpos) as [child|e]; [|done].
      cbn [mbind result_bind]. apply IH; lia. }
    case_decide.
    + destruct (item heap (2 * pos + 1)) as [l|e]; [|done].
      destruct (item heap (2 * pos + 1 + 1)) as [r|e]; [|done].
      cbn [mbind result_bind]. destruct (negb (lt l r)); apply Hnext; lia.
    + cbn [mbind result_bind]. apply Hnext; lia.
Qed.

(** [_siftdown] on a heap that is out of order only at [pos] returns a heap
    with the same items. *)
Lemma siftdown_loop_spec fuel : ∀ heap newitem pos,
  pos ≤ fuel →
  sift_hole key (<[pos:=newitem]> heap) pos →
  ∃ h', _siftdown_loop lt fuel heap newitem 0 pos = Ok h'
        ∧ is_heap key h' ∧ h' ≡ₚ <[pos:=newitem]> heap.
Proof.
  induction fuel as [|fuel IH]; intros heap newitem pos Hfuel (Hlen & Hedge & Hgrand).
  - assert (pos = 0) as -> by lia. eexists; split; [done|]. split; [|done].
    intros i Hi. apply Hedge; lia.
  - rewrite length_insert in Hlen. cbn [_siftdown_loop]. case_decide as Hpos.
    + destruct (lookup_lt_is_Some_2 heap ((pos - 1) / 2)) as [parent Hparent]; [lia|].
      rewrite (item_lookup _ _ _ Hparent). cbn [mbind result_bind]. rewrite lt_key.
      destruct (Z.ltb_spec (key newitem) (key parent)) as [Hlt|Hge].
      * destruct (IH (<[pos:=parent]> heap) newitem ((pos - 1) / 2)) as (h' & -> & Hh' & Hperm).
        { lia. }
        { split; [rewrite !length_insert; lia|]. split.
          - intros i Hi Hne x p Hx Hp.
            destruct (decide (i = pos)) as [->|Hipos].
            + rewrite list_lookup_insert_ne, list_lookup_insert_eq in Hx by lia.
              rewrite list_lookup_insert_eq in Hp by (rewrite length_insert; lia).
              simplify_eq. lia.
            + rewrite !list_lookup_insert_ne in Hx by lia.
              destruct (decide ((i - 1) / 2 = pos)) as [Hq|Hq];
                [|destruct (decide ((i - 1) / 2 = (pos - 1) / 2)) as [Hq'|Hq']].
              * rewrite Hq in Hp.
                rewrite list_lookup_insert_ne, list_lookup_insert_eq in Hp by lia.
                simplify_eq. apply (Hgrand i x p); [lia..| |].
                -- by rewrite list_lookup_insert_ne by lia.
                -- by rewrite list_lookup_insert_ne by lia.
              * rewrite Hq' in Hp.
                rewrite list_lookup_insert_eq in Hp by (rewrite length_insert; lia).
                simplify_eq.
                assert (key parent ≤ key x)%Z; [|lia].
                apply (Hedge i Hi Hipos x parent).
                -- by rewrite list_lookup_insert_ne by lia.
                -- rewrite Hq'. by rewrite list_lookup_insert_ne by lia.
              * rewrite !list_lookup_insert_ne in Hp by lia.
                apply (Hedge i Hi Hipos x p); by rewrite list_lookup_insert_ne by lia.
          - intros c x p Hpp Hc Hcp Hx Hp.
            rewrite !list_lookup_insert_ne in Hp by lia.
            assert (key p ≤ key parent)%Z as Hpparent.
            { apply (Hedge ((pos - 1) / 2)); [lia..| |];
                by rewrite list_lookup_insert_ne by lia. }
            destruct (decide (c = pos)) as [->|Hcpos].
            + rewrite list_lookup_insert_ne, list_lookup_insert_eq in Hx by lia.
              by simplify_eq.
            + rewrite !list_lookup_insert_ne in Hx by lia.
              assert (key parent ≤ key x)%Z; [|lia].
              apply (Hedge c Hc Hcpos x parent).
              * by rewrite list_lookup_insert_ne by lia.
              * rewrite Hcp. by rewrite list_lookup_insert_ne by lia. }
        eexists; split; [done|]. split; [done|].
        rewrite Hperm.
        rewrite <-(list_insert_insert_eq heap pos parent newitem).
        apply swap_Permutation.
        -- apply list_lookup_insert_eq. lia.
        -- rewrite list_lookup_insert_ne by lia. done.
      * eexists; split; [done|]. split; [|done].
        intros i Hi. destruct (decide (i = pos)) as [->|Hne]; [|by apply Hedge].
        intros x p. rewrite list_lookup_insert_eq by lia. rewrite list_lookup_insert_ne by lia.
        intros ??; simplify_eq. lia.
    + assert (pos = 0) as -> by lia. eexists; split; [done|]. split; [|done].
      intros i Hi. apply Hedge; lia.
Qed.

(** The child [_siftup] moves up: it exists, is a child of [pos], and is no
    larger than its sibling. *)
Lemma smaller_child heap pos :
  2 * pos + 1 < length heap →
  ∃ childpos child,
    (if decide (2 * pos + 1 + 1 < length heap) then
       left_child ← item heap (2 * pos + 1);
       right_child ← item heap (2 * pos + 1 + 1);
       Ok (if negb (lt left_child right_child) then 2 * pos + 1 + 1 else 2 * pos + 1)
     else Ok (2 * pos + 1)) = Ok childpos
    ∧ heap !! childpos = Some child
    ∧ pos < childpos < length heap
    ∧ (childpos - 1) / 2 = pos
    ∧ ∀ i x, 0 < i → (i - 1) / 2 = pos → i ≠ childpos → heap !! i = Some x →
        (key child ≤ key x)%Z.
Proof.
  intros Hlen.
  destruct (lookup_lt_is_Some_2 heap (2 * pos + 1)) as [l Hl]; [lia|].
  case_decide as Hright.
  - destruct (lookup_lt_is_Some_2 heap (2 * pos + 1 + 1)) as [r Hr]; [lia|].
    rewrite (item_lookup _ _ _ Hl), (item_lookup _ _ _ Hr). cbn [mbind result_bind].
    rewrite lt_key. destruct (Z.ltb_spec (key l) (key r)) as [Hlt|Hge]; cbn [negb].
    + exists (2 * pos + 1), l. repeat split; [done|lia..|].
      intros i x Hi Hq Hne Hx. assert (i = 2 * pos + 1 + 1) as -> by lia.
      simplify_eq. lia.
    + exists (2 * pos + 1 + 1), r. repeat split; [done|lia..|].
      intros i x Hi Hq Hne Hx. assert (i = 2 * pos + 1) as -> by lia.
      simplify_eq. lia.
  - exists (2 * pos + 1), l. repeat split; [done|lia..|].
    intros i x Hi Hq Hne Hx. apply lookup_lt_Some in Hx. lia.
Qed.

(** The first loop of [_siftup] walks the gap down to a leaf and keeps the
    items. *)
Lemma siftup_loop_spec fuel : ∀ heap newitem pos,
  length heap - pos ≤ fuel →
  sift_gap key (<[pos:=newitem]> heap) pos →
  ∃ h' pos',
    _siftup_loop lt fuel heap (length heap) pos = Ok (h', pos')
    ∧ length heap ≤ 2 * pos' + 1
    ∧ sift_gap key (<[pos':=newitem]> h') pos'
    ∧ <[pos':=newitem]> h' ≡ₚ <[pos:=newitem]> heap.
Proof.
  induction fuel as [|fuel IH]; intros heap newitem pos Hfuel (Hlen & Hedge & Hgrand);
    rewrite length_insert in Hlen.
  { lia. }
  cbn [_siftup_loop]. case_decide as Hchild.
  - destruct (smaller_child heap pos Hchild)
      as (childpos & child & -> & Hc & Hrange & Hcp & Hmin).
    cbn [mbind result_bind]. rewrite (item_lookup _ _ _ Hc). cbn [mbind result_bind].
    destruct (IH (<[pos:=child]> heap) newitem childpos)
      as (h' & pos' & Hloop & Hleaf & Hgap & Hperm).
    { rewrite length_insert. lia. }
    { split; [rewrite !length_insert; lia|]. split.
      - intros i Hi Hne Hq x p Hx Hp.
        rewrite (list_lookup_insert_ne _ childpos) in Hx, Hp by lia.
        destruct (decide (i = pos)) as [->|Hipos].
        + rewrite list_lookup_insert_eq in Hx by lia.
          rewrite list_lookup_insert_ne in Hp by lia. simplify_eq.
          apply (Hgrand childpos x p); [lia..| |];
            by rewrite list_lookup_insert_ne by lia.
        + rewrite list_lookup_insert_ne in Hx by lia.
          destruct (decide ((i - 1) / 2 = pos)) as [Hq'|Hq'].
          * rewrite Hq', list_lookup_insert_eq in Hp by lia. simplify_eq.
            by apply (Hmin i).
          * rewrite list_lookup_insert_ne in Hp by lia.
            apply (Hedge i Hi Hipos Hq' x p); by rewrite list_lookup_insert_ne by lia.
      - intros c x p _ Hc0 Hcc Hx Hp.
        rewrite Hcp in Hp.
        rewrite list_lookup_insert_ne, list_lookup_insert_eq in Hp by lia.
        rewrite !list_lookup_insert_ne in Hx by lia.
        assert (p = child) as -> by congruence.
        apply (Hedge c); [lia..| |].
        + by rewrite list_lookup_insert_ne by lia.
        + rewrite Hcc. by rewrite list_lookup_insert_ne by lia. }
    rewrite length_insert in Hloop, Hleaf. rewrite Hloop.
    exists h', pos'. split; [done|]. split; [done|]. split; [done|].
    rewrite Hperm.
    rewrite <-(list_insert_insert_eq heap pos child newitem).
    apply swap_Permutation.
    + apply list_lookup_insert_eq. lia.
    + by rewrite list_lookup_insert_ne by lia.
  - exists heap, pos. split; [done|]. split; [lia|]. split; [|done].
    split; [by rewrite length_insert|]. done.
Qed.

(** At a leaf a gap is a hole. *)
Lemma sift_gap_leaf h pos :
  length h ≤ 2 * pos + 1 → sift_gap key h pos → sift_hole key h pos.
Proof.
  intros Hleaf (Hlen & Hedge & Hgrand). split; [done|]. split; [|done].
  intros i Hi Hne. destruct (decide ((i - 1) / 2 = pos)) as [Hq|Hq]; [|by apply Hedge].
  intros x p Hx _. apply lookup_lt_Some in Hx. lia.
Qed.

Lemma siftdown_spec heap pos :
  sift_hole key heap pos →
  ∃ h', _siftdown lt heap 0 pos = Ok h' ∧ is_heap key h' ∧ h' ≡ₚ heap.
Proof.
  intros Hhole. pose proof Hhole as (Hlen & _).
  destruct (lookup_lt_is_Some_2 heap pos Hlen) as [newitem Hnew].
  unfold _siftdown. rewrite (item_lookup _ _ _ Hnew). cbn [mbind result_bind].
  destruct (siftdown_loop_spec pos heap newitem pos) as (h' & -> & Hh & Hperm);
    [done|by rewrite list_insert_id|].
  rewrite list_insert_id in Hperm by done. by exists h'.
Qed.

Lemma siftup_spec heap :
  sift_gap key heap 0 →
  ∃ h', _siftup lt heap 0 = Ok h' ∧ is_heap key h' ∧ h' ≡ₚ heap.
Proof.
  intros Hgap. pose proof Hgap as (Hlen & _).
  destruct (lookup_lt_is_Some_2 heap 0 Hlen) as [newitem Hnew].
  unfold _siftup. rewrite (item_lookup _ _ _ Hnew). cbn [mbind result_bind].
  destruct (siftup_loop_spec (length heap - 0) heap newitem 0)
    as (h' & pos' & -> & Hleaf & Hgap' & Hperm);
    [done|by rewrite list_insert_id|].
  cbn [mbind result_bind].
  assert (length (<[pos':=newitem]> h') = length heap) as Hlen'.
  { by rewrite Hperm, length_insert. }
  destruct (siftdown_spec (<[pos':=newitem]> h') pos') as (h'' & -> & Hh & Hperm').
  { apply sift_gap_leaf; [lia|done]. }
  exists h''. split; [done|]. split; [done|].
  rewrite Hperm', Hperm. by rewrite list_insert_id.
Qed.

Lemma is_heap_nil : is_heap key [].
Proof. intros i _ x p Hx. done. Qed.

(** [heappush] never raises on a heap; it returns a heap holding the old
    items and the new one. *)
Lemma heappush_spec heap x :
  is_heap key heap →
  ∃ h', heappush lt heap x = Ok h' ∧ is_heap key h' ∧ h' ≡ₚ x :: heap.
Proof.
  intros Hheap. unfold heappush.
  destruct (siftdown_spec (heap ++ [x]) (length (heap ++ [x]) - 1)) as (h' & -> & Hh & Hperm).
  { rewrite length_app. simpl.
    split; [rewrite length_app; simpl; lia|]. split.
    - intros i Hi Hne y p Hy Hp.
      assert (i < length heap).
      { apply lookup_lt_Some in Hy. rewrite length_app in Hy. simpl in Hy. lia. }
      rewrite lookup_app_l in Hy, Hp by lia. by apply (Hheap i).
    - intros c y p Hpos Hc0 Hc Hy. apply lookup_lt_Some in Hy.
      rewrite length_app in Hy. simpl in Hy. lia. }
  exists h'. split; [done|]. split; [done|].
  by rewrite Hperm, Permutation_app_comm.
Qed.

(** The root of a heap is a least item. *)
Lemma heap_root_min h : is_heap key h → ∀ i r x,
  h !! 0 = Some r → h !! i = Some x → (key r ≤ key x)%Z.
Proof.
  intros Hheap i. induction (lt_wf i) as [i _ IH]. intros r x Hr Hx.
  destruct (decide (i = 0)) as [->|Hi]; [by simplify_eq|].
  destruct (lookup_lt_is_Some_2 h ((i - 1) / 2)) as [p Hp].
  { apply lookup_lt_Some in Hx. lia. }
  assert (key p ≤ key x)%Z by (apply (Hheap i); [lia|done..]).
  assert (key r ≤ key p)%Z by (apply (IH ((i - 1) / 2)); [lia|done..]).
  lia.
Qed.

(** [heappop] never raises on a heap that is not empty; it returns a least
    item and a heap of the others. *)
Lemma heappop_spec heap :
  is_heap key heap → heap ≠ [] →
  ∃ x h', heappop lt heap = Ok (x, h')
    ∧ is_heap key h' ∧ heap ≡ₚ x :: h' ∧ ∀ y, y ∈ heap → (key x ≤ key y)%Z.
Proof.
  intros Hheap Hne.
  destruct (proj2 (last_is_Some heap) Hne) as [lastelt Hlast].
  unfold heappop. rewrite Hlast.
  apply last_Some in Hlast as [init ->]. rewrite removelast_last.
  destruct init as [|returnitem init].
  - exists lastelt, []. split; [done|]. split; [apply is_heap_nil|]. split; [done|].
    intros y ->%list_elem_of_singleton. lia.
  - cbn [item lookup list_lookup mbind result_bind].
    destruct (siftup_spec (<[0:=lastelt]> (returnitem :: init))) as (h' & -> & Hh & Hperm).
    { split; [simpl; lia|]. split; [|intros; lia].
      intros i Hi _ Hq x p Hx Hp.
      rewrite list_lookup_insert_ne in Hx, Hp by lia.
      apply (Hheap i Hi).
      - by apply lookup_app_l_Some.
      - by apply lookup_app_l_Some. }
    exists returnitem, h'. split; [done|]. split; [done|]. split.
    + rewrite Hperm. simpl. by rewrite Permutation_app_comm.
    + intros y [i Hy]%list_elem_of_lookup. by apply (heap_root_min _ Hheap i).
Qed.
End heap_correct.

(** ** The queue and the worker *)

Section worker_correct.
Context `{Collaborators}.
Implicit Types s : service.
Implicit Types q : PriorityQueue.t.

Lemma BackgroundTaskItem_lt_priority a b :
  BackgroundTaskItem_lt a b = (priority a <? priority b)%Z.
Proof. done. Qed.

(** [put] and [get] on a queue that is a heap. *)
Lemma put_spec q x :
  heapq.is_heap priority q →
  ∃ q', PriorityQueue.put q x = Ok q' ∧ heapq.is_heap priority q' ∧ q' ≡ₚ x :: q.
Proof. apply heappush_spec, BackgroundTaskItem_lt_priority. Qed.

Lemma get_spec q :
  heapq.is_heap priority q → q ≠ [] →
  ∃ x q', PriorityQueue.get q = Ok (x, q')
    ∧ heapq.is_heap priority q' ∧ q ≡ₚ x :: q'
    ∧ ∀ y, y ∈ q → (priority x ≤ priority y)%Z.
Proof.
  intros Hq Hne. unfold PriorityQueue.get.
  case_decide as Hlen; [by destruct q|].
  by apply heappop_spec; [apply BackgroundTaskItem_lt_priority|..].
Qed.

(** A pass of the worker over a queue that is a heap goes one of the three
    ways of [pass_outcome]; in particular the model's [IndexError] branch is
    never taken. *)
Lemma runner_pass s : queue_ok s → pass_outcome s (_background_task_runner s).
Proof.
  intros Hq. unfold _background_task_runner.
  destruct (_background_task_thread s) eqn:Hthread; try constructor.
  destruct (_keep_background_task_thread_alive s) eqn:Halive;
    [|by constructor].
  destruct (decide (_background_task_queue s = [])) as [Hnil|Hne].
  { rewrite Hnil. cbn. constructor. }
  destruct (get_spec _ Hq Hne) as (x & q & -> & Hq' & Hperm & Hmin).
  destruct (run_task (task x) (_db_conn s)) as [db o] eqn:Hrun.
  by eapply pass_task.
Qed.

(** With the thread running, the flag set and the queue not empty, the pass
    does take an item of least priority and runs its task. *)
Lemma runner_executes s :
  queue_ok s →
  _background_task_thread s = Running →
  _keep_background_task_thread_alive s = true →
  _background_task_queue s ≠ [] →
  ∃ x q,
    PriorityQueue.get (_background_task_queue s) = Ok (x, q)
    ∧ (∀ y, y ∈ _background_task_queue s → (priority x ≤ priority y)%Z)
    ∧ _background_task_queue (_background_task_runner s) = q
    ∧ executed (_background_task_runner s)
      = executed s ++ [(x, (run_task (task x) (_db_conn s)).2)].
Proof.
  intros Hq Hthread Halive Hne.
  destruct (get_spec _ Hq Hne) as (x & q & Hget & _ & _ & Hmin).
  exists x, q. split; [done|]. split; [done|].
  unfold _background_task_runner. rewrite Hthread, Halive, Hget.
  by destruct (run_task (task x) (_db_conn s)).
Qed.

Lemma runner_queue_ok s : queue_ok s → queue_ok (_background_task_runner s).
Proof. intros Hq. by destruct (runner_pass s Hq). Qed.

Lemma put_task_spec s x :
  queue_ok s →
  ∃ q, put_task s x =
         {| _db_conn := _db_conn s; _background_task_queue := q;
            _keep_background_task_thread_alive := _keep_background_task_thread_alive s;
            _background_task_thread := _background_task_thread s;
            executed := executed s |}
       ∧ heapq.is_heap priority q ∧ q ≡ₚ x :: _background_task_queue s.
Proof.
  intros Hq. unfold put_task.
  destruct (put_spec _ x Hq) as (q & -> & ? & ?). by exists q.
Qed.

Lemma step_queue_ok s e : queue_ok s → queue_ok (step s e).
Proof.
  intros Hq. destruct e as [x|]; simpl.
  - destruct (put_task_spec s x Hq) as (q & -> & ? & ?). done.
  - by apply runner_queue_ok.
Qed.

(** Every state reached from [init] has a queue that is a heap. *)
Lemma run_queue_ok s events : queue_ok s → queue_ok (run s events).
Proof.
  revert s. induction events as [|e events IH]; intros s Hq; [done|].
  apply IH, step_queue_ok, Hq.
Qed.

Lemma init_queue_ok db : queue_ok (init db).
Proof. apply is_heap_nil. Qed.

(** A dead worker executes nothing, whatever is put afterwards. *)
Lemma dead_worker_step s e ex :
  _background_task_thread s = Died ex →
  _background_task_thread (step s e) = Died ex ∧ executed (step s e) = executed s.
Proof.
  intros Hdead. destruct e as [x|]; simpl.
  - unfold put_task. by destruct (PriorityQueue.put _ _).
  - unfold _background_task_runner. by rewrite Hdead.
Qed.

Lemma dead_worker_run events : ∀ s ex,
  _background_task_thread s = Died ex →
  _background_task_thread (run s events) = Died ex
  ∧ executed (run s events) = executed s.
Proof.
  induction events as [|e events IH]; intros s ex Hdead; [done|].
  destruct (dead_worker_step s e ex Hdead) as [Hthread Hexec].
  simpl. destruct (IH _ _ Hthread) as [-> ->]. done.
Qed.

(** C3, as the code has it: when a dequeued task raises, nothing catches the
    exception.  The worker thread dies with it, the items still queued stay
    in the queue, and whatever is put or attempted afterwards, no further
    task is executed. *)
Theorem task_exception_ends_worker s x q db e :
  _background_task_thread s = Running →
  _keep_background_task_thread_alive s = true →
  PriorityQueue.get (_background_task_queue s) = Ok (x, q) →
  run_task (task x) (_db_conn s) = (db, Raise e) →
  _background_task_thread (_background_task_runner s) = Died e
  ∧ _background_task_queue (_background_task_runner s) = q
  ∧ ∀ events,
      _background_task_thread (run (_background_task_runner s) events) = Died e
      ∧ executed (run (_background_task_runner s) events)
        = executed s ++ [(x, Raise e)].
Proof.
  intros Hthread Halive Hget Hrun.
  assert (_background_task_runner s =
            {| _db_conn := db; _background_task_queue := q;
               _keep_background_task_thread_alive := true;
               _background_task_thread := Died e;
               executed := executed s ++ [(x, Raise e)] |}) as ->.
  { unfold _background_task_runner. by rewrite Hthread, Halive, Hget, Hrun. }
  split; [done|]. split; [done|]. intros events.
  by apply dead_worker_run.
Qed.

(** C4, as the code has it: the queue orders items by priority alone.
    Whatever was put and run before, [k] further passes of the worker execute
    tasks in non-decreasing priority; each of them left the queue, and none
    of the items still queued has a smaller priority than an executed one.
    Insertion order plays no part. *)
Theorem worker_dequeues_by_priority db events k :
  let s := run (init db) events in
  let s' := run s (replicate k Worker) in
  ∃ new,
    executed s' = executed s ++ new
    ∧ StronglySorted priority_le new.*1
    ∧ new.*1 ++ _background_task_queue s' ≡ₚ _background_task_queue s
    ∧ Forall (λ a, Forall (priority_le a) (_background_task_queue s')) new.*1.
Proof.
  intros s. assert (queue_ok s) as Hq by apply run_queue_ok, init_queue_ok.
  clearbody s. revert s Hq. induction k as [|k IH]; intros s Hq s'.
  { exists []. rewrite app_nil_r. simpl.
    split; [done|]. split; [constructor|]. split; [done|constructor]. }
  subst s'. cbn [replicate run foldl step]. 
  specialize (IH (_background_task_runner s) (runner_queue_ok s Hq)).
  cbn zeta in IH. unfold run in IH.
  destruct IH as (new & Hexec & Hsorted & Hperm & Hle).
  destruct (runner_pass s Hq) as [| |x q db' o Hthread Halive Hq' Hpermq Hmin Hrun].
  - by exists new.
  - by exists new.
  - simpl in *. exists ((x, o) :: new). split; [by rewrite Hexec, <-app_assoc|].
    assert (∀ y, y ∈ q → priority_le x y) as Hx.
    { intros y Hy. apply Hmin. rewrite Hpermq. by right. }
    split; [|split].
    + simpl. constructor; [done|]. apply Forall_forall. intros y Hy.
      apply Hx. rewrite <-Hperm. apply elem_of_app. by left.
    + simpl. by rewrite Hperm.
    + simpl. constructor; [|done]. apply Forall_forall. intros y Hy.
      apply Hx. rewrite <-Hperm. apply elem_of_app. by right.
Qed.

(** The invariant behind C5: [t1] is still queued or has run and returned,
    and so far nothing of priority 1 was begun before that. *)
Lemma priority_order_snoc t1 log x o :
  priority_order t1 log →
  (priority x = 1%Z → (t1, Ok ()) ∈ log) →
  priority_order t1 (log ++ [(x, o)]).
Proof.
  intros Hlog Hx pre y oy post Heq Hy.
  destruct post as [|z post _] using rev_ind.
  - apply app_inj_tail in Heq as [<- [= <- <-]]. auto.
  - rewrite app_comm_cons, app_assoc in Heq. apply app_inj_tail in Heq as [-> _].
    by eapply Hlog.
Qed.

Lemma priority_0_first_run t1 events : ∀ s log0,
  priority t1 = 0%Z →
  queue_ok s →
  ∀ new, executed s = log0 ++ new →
  priority_order t1 new →
  (_background_task_thread s = Running →
     t1 ∈ _background_task_queue s ∨ (t1, Ok ()) ∈ new) →
  ∃ new', executed (run s events) = log0 ++ new' ∧ priority_order t1 new'.
Proof.
  induction events as [|e events IH]; intros s log0 Ht1 Hq new Hexec Hord Hinv.
  { by exists new. }
  cbn [run foldl]. destruct e as [x|]; cbn [step].
  - destruct (put_task_spec s x Hq) as (q & -> & Hq' & Hperm).
    apply IH with (new := new); [done..|]. simpl. intros Hthread.
    destruct (Hinv Hthread) as [Hin|Hin]; [left|by right].
    rewrite Hperm. by right.
  - destruct (runner_pass s Hq) as [| |x q db' o Hthread Halive Hq' Hpermq Hmin Hrun].
    + by apply IH with (new := new).
    + by apply IH with (new := new).
    + apply IH with (new := new ++ [(x, o)]); [done|done|..].
      * simpl. by rewrite Hexec, <-app_assoc.
      * apply priority_order_snoc; [done|]. intros Hx.
        destruct (Hinv Hthread) as [Hin|Hin]; [|done].
        specialize (Hmin _ Hin). lia.
      * simpl. intros Ho. destruct o as [[]|e]; [|done].
        destruct (Hinv Hthread) as [Hin|Hin].
        -- rewrite Hpermq in Hin. apply elem_of_cons in Hin as [->|Hin];
             [right|by left].
           apply elem_of_app. right. by left.
        -- right. apply elem_of_app. by left.
Qed.

(** C5: once a task [t1] of priority 0 and a task [t2] of priority 1 are both
    in the queue, in whichever order they were put and whatever is put or run
    later, [t2] is not begun before [t1] has been executed and has
    returned. *)
Theorem priority_0_runs_before_priority_1 db events0 events t1 t2 pre o2 post :
  let s := run (init db) events0 in
  priority t1 = 0%Z → priority t2 = 1%Z →
  t1 ∈ _background_task_queue s → t2 ∈ _background_task_queue s →
  executed (run s events) = executed s ++ pre ++ (t2, o2) :: post →
  (t1, Ok ()) ∈ pre.
Proof.
  intros s Ht1 Ht2 Hin1 _ Hexec.
  destruct (priority_0_first_run t1 events s (executed s) Ht1) with (new := @nil (BackgroundTaskItem * result unit))
    as (new' & Hexec' & Hord).
  - apply run_queue_ok, init_queue_ok.
  - by rewrite app_nil_r.
  - intros pre' x o post' Heq. by destruct pre'.
  - by left.
  - rewrite Hexec in Hexec'. apply app_inv_head in Hexec'. subst new'.
    by eapply Hord.
Qed.
End worker_correct.

(** ** Folds *)

Section fold_facts.
Context {A B : Type}.

(** Loops as folds: nested loops flatten, invariants carry through, and what
    one iteration establishes and no iteration undoes holds at the end. *)
Lemma foldl_ext (f g : A → B → A) l a :
  (∀ a x, f a x = g a x) → foldl f a l = foldl g a l.
Proof. intros Hfg. revert a. induction l as [|x l IH]; intros a; simpl; [done|]. by rewrite Hfg, IH. Qed.

Lemma foldl_bind {C} (f : A → C → A) (g : B → list C) l a :
  foldl f a (l ≫= g) = foldl (λ a x, foldl f a (g x)) a l.
Proof.
  revert a. induction l as [|x l IH]; intros a; [done|].
  simpl. by rewrite foldl_app, IH.
Qed.

Lemma foldl_invariant (P : A → Prop) (f : A → B → A) l a :
  P a → (∀ a x, x ∈ l → P a → P (f a x)) → P (foldl f a l).
Proof.
  revert a. induction l as [|x l IH]; intros a Ha Hstep; [done|].
  simpl. apply IH.
  - apply Hstep; [by left|done].
  - intros a' y Hy. apply Hstep. by right.
Qed.

Lemma foldl_establish (Q : A → Prop) (f : A → B → A) l a x :
  x ∈ l → (∀ a, Q (f a x)) → (∀ a y, Q a → Q (f a y)) → Q (foldl f a l).
Proof.
  intros Hx Hest Hstable. revert a. induction l as [|y l IH]; intros a.
  { by apply elem_of_nil in Hx. }
  simpl. apply elem_of_cons in Hx as [<-|Hx].
  - apply foldl_invariant; [apply Hest|]. intros a' z _. apply Hstable.
  - by apply IH.
Qed.
End fold_facts.

Section link_facts.
Implicit Types db : database.
Implicit Types l : media_record_links_row.

(** The existence query and the number of links between two segments. *)
Lemma sql_any_elem_of x xs : sql_any x xs = true ↔ x ∈ xs.
Proof.
  unfold sql_any. rewrite existsb_exists. split.
  - intros (y & Hy & ->%N.eqb_eq). by apply list_elem_of_In.
  - intros Hx. exists x. split; [by apply list_elem_of_In|apply N.eqb_refl].
Qed.

Lemma link_connects_spec id1 id2 l :
  link_connects id1 id2 l = true ↔
    (segment1_id l = id1 ∧ segment2_id l = id2)
    ∨ (segment1_id l = id2 ∧ segment2_id l = id1).
Proof.
  unfold link_connects.
  rewrite orb_true_iff, !andb_true_iff, !N.eqb_eq. done.
Qed.

Lemma link_connects_sym id1 id2 l : link_connects id1 id2 l = link_connects id2 id1 l.
Proof. unfold link_connects. apply orb_comm. Qed.

Lemma exist_links_between db id1 id2 :
  does_link_between_media_record_segments_exist db id1 id2 = true
  ↔ 0 < links_between db id1 id2.
Proof.
  unfold does_link_between_media_record_segments_exist, links_between.
  induction (media_record_links db) as [|l ls IH]; simpl; [lia|].
  rewrite filter_cons. destruct (link_connects id1 id2 l) eqn:E.
  - rewrite decide_True by done. simpl. split; [lia|done].
  - rewrite decide_False by congruence. done.
Qed.

Lemma links_between_create db c s o id1 id2 :
  links_between (create_link_between_media_record_segments db c s o) id1 id2
  = links_between db id1 id2
    + (if link_connects id1 id2 {| content_id := c; segment1_id := s; segment2_id := o |}
       then 1 else 0).
Proof.
  unfold links_between, create_link_between_media_record_segments. simpl.
  rewrite filter_app, length_app. f_equal.
  rewrite filter_cons, filter_nil.
  destruct (link_connects _ _ _); [by rewrite decide_True|by rewrite decide_False].
Qed.

Lemma links_between_sym db id1 id2 : links_between db id1 id2 = links_between db id2 id1.
Proof.
  unfold links_between. f_equal. apply list_filter_iff.
  intros l. by rewrite link_connects_sym.
Qed.
End link_facts.

Section grouping.
Implicit Types d : segments_dict.
Implicit Types r : link_query_row.

(** Grouping: every fetched row ends up under its media record id, and
    nothing else does. *)
Lemma dict_append_new d r : in_dict (dict_append d (lq_mediaRecordId r) r) r.
Proof.
  induction d as [|[k rs] d IH]; simpl.
  - exists [r]. split; by left.
  - destruct (N.eqb_spec k (lq_mediaRecordId r)) as [->|Hne].
    + exists (rs ++ [r]). split; [by left|]. apply elem_of_app. right. by left.
    + destruct IH as (segments & Hin & Hr). exists segments. split; [by right|done].
Qed.

Lemma dict_append_old d k r r' : in_dict d r' → in_dict (dict_append d k r) r'.
Proof.
  intros (segments & Hin & Hr). induction d as [|[k' rs] d IH]; simpl.
  { by apply elem_of_nil in Hin. }
  apply elem_of_cons in Hin as [[= <- <-]|Hin].
  - destruct (N.eqb (lq_mediaRecordId r') k).
    + exists (segments ++ [r]). split; [by left|]. apply elem_of_app. by left.
    + exists segments. split; [by left|done].
  - destruct (IH Hin) as (segments' & Hin' & Hr').
    destruct (N.eqb k' k).
    + exists segments. split; [by right|done].
    + exists segments'. split; [by right|done].
Qed.

Lemma dict_append_all P d r :
  P r → dict_all P d → dict_all P (dict_append d (lq_mediaRecordId r) r).
Proof.
  intros Hr. induction d as [|[k rs] d IH]; intros Hd k' segments r' Hin Hr'; simpl in Hin.
  - apply list_elem_of_singleton in Hin. injection Hin as -> ->.
    by apply list_elem_of_singleton in Hr' as ->.
  - destruct (N.eqb_spec k (lq_mediaRecordId r)) as [->|Hne].
    + apply elem_of_cons in Hin as [[= -> ->]|Hin].
      * apply elem_of_app in Hr' as [Hr'| ->%list_elem_of_singleton]; [|done].
        apply (Hd _ rs); [by left|done].
      * apply (Hd _ segments); [by right|done].
    + apply elem_of_cons in Hin as [[= -> ->]|Hin].
      * apply (Hd _ rs); [by left|done].
      * apply (IH (λ k segs r Hin, Hd k segs r (list_elem_of_further _ _ _ Hin)) _ segments);
          done.
Qed.

Lemma group_by_media_record_complete rows r :
  r ∈ rows → in_dict (group_by_media_record rows) r.
Proof.
  intros Hr. unfold group_by_media_record.
  apply (foldl_establish (λ d, in_dict d r)) with (x := r); [done|..].
  - intros d. apply dict_append_new.
  - intros d r'. apply dict_append_old.
Qed.

Lemma group_by_media_record_sound rows :
  dict_all (λ r, r ∈ rows) (group_by_media_record rows).
Proof.
  unfold group_by_media_record. apply foldl_invariant.
  - intros k segments r Hin. by apply elem_of_nil in Hin.
  - intros d r Hr Hd. by apply dict_append_all.
Qed.

(** The loops visit exactly the ordered pairs of fetched rows of distinct
    media records. *)
Lemma candidate_pairs_complete rows a b :
  a ∈ rows → b ∈ rows → lq_mediaRecordId a ≠ lq_mediaRecordId b →
  (a, b) ∈ candidate_pairs (group_by_media_record rows).
Proof.
  intros Ha Hb Hne.
  destruct (group_by_media_record_complete rows a Ha) as (sa & Hsa & Hina).
  destruct (group_by_media_record_complete rows b Hb) as (sb & Hsb & Hinb).
  unfold candidate_pairs.
  apply list_elem_of_bind. exists (lq_mediaRecordId a, sa). split; [|done].
  apply list_elem_of_bind. exists a. split; [|done].
  apply list_elem_of_bind. exists (lq_mediaRecordId b, sb). split; [|done].
  destruct (N.eqb_spec (lq_mediaRecordId b) (lq_mediaRecordId a)) as [Heq|_]; [done|].
  apply list_elem_of_bind. exists b. split; [by left|done].
Qed.

Lemma candidate_pairs_sound rows a b :
  (a, b) ∈ candidate_pairs (group_by_media_record rows) →
  a ∈ rows ∧ b ∈ rows ∧ lq_mediaRecordId a ≠ lq_mediaRecordId b.
Proof.
  unfold candidate_pairs.
  intros ([ka sa] & Hab & Hsa)%list_elem_of_bind.
  apply list_elem_of_bind in Hab as (a' & Hab & Ha').
  apply list_elem_of_bind in Hab as ([kb sb] & Hab & Hsb).
  destruct (N.eqb_spec kb ka) as [Heq|Hne]; [by apply elem_of_nil in Hab|].
  apply list_elem_of_bind in Hab as (b' & Hab & Hb').
  apply list_elem_of_singleton in Hab. injection Hab as -> ->.
  destruct (group_by_media_record_sound rows ka sa a' Hsa Ha') as [<- ?].
  destruct (group_by_media_record_sound rows kb sb b' Hsb Hb') as [<- ?].
  done.
Qed.
End grouping.

Section linker.
Context `{Collaborators}.
Implicit Types db : database.

(** The four nested loops are one fold over [candidate_pairs]. *)
Lemma task_as_fold content_id media_record_ids db :
  generate_content_media_record_links_task content_id media_record_ids db
  = foldl (link_pair content_id) db
      (candidate_pairs (group_by_media_record (link_query db media_record_ids))).
Proof.
  unfold generate_content_media_record_links_task, candidate_pairs.
  rewrite foldl_bind. apply foldl_ext. intros db1 [media_record_id segments].
  rewrite foldl_bind. apply foldl_ext. intros db2 segment.
  unfold link_segment_to_others.
  rewrite foldl_bind. apply foldl_ext. intros db3 [other_id other_segments].
  destruct (N.eqb other_id media_record_id); [done|].
  rewrite foldl_bind. apply foldl_ext. intros db4 other_segment. done.
Qed.

(** The linker writes to the link table only. *)
Lemma link_pair_tables content_id db p :
  documents (link_pair content_id db p) = documents db
  ∧ videos (link_pair content_id db p) = videos db.
Proof.
  unfold link_pair, link_segments.
  destruct (does_link_between_media_record_segments_exist _ _ _); [done|].
  by destruct (negb _).
Qed.

(** What one visit of a pair does to the number of links between two ids. *)
Lemma link_pair_links_between content_id db p id1 id2 :
  let n := links_between db id1 id2 in
  let n' := links_between (link_pair content_id db p) id1 id2 in
  n' = n ∨ (n = 0 ∧ n' = 1).
Proof.
  intros n n'. subst n n'. unfold link_pair, link_segments.
  destruct (does_link_between_media_record_segments_exist db _ _) eqn:Hex; [by left|].
  destruct (negb _); [|by left].
  rewrite links_between_create.
  destruct (link_connects id1 id2 _) eqn:Hc; [|left; lia].
  right. apply link_connects_spec in Hc. simpl in Hc.
  destruct (links_between db id1 id2) eqn:Hn; [done|].
  assert (does_link_between_media_record_segments_exist db (lq_id p.1) (lq_id p.2) = true);
    [|congruence].
  apply exist_links_between.
  destruct Hc as [[-> ->]|[-> ->]]; [|rewrite links_between_sym]; lia.
Qed.

(** After the visit of a pair above the threshold a link joins it. *)
Lemma link_pair_links similar content_id db (a b : link_query_row) :
  similar = negb (Qle_bool (Levenshtein_ratio (lq_text a) (lq_text b)) (9 # 10)) →
  similar = true →
  0 < links_between (link_pair content_id db (a, b)) (lq_id a) (lq_id b).
Proof.
  intros -> Hsim. unfold link_pair, link_segments. simpl.
  destruct (does_link_between_media_record_segments_exist db _ _) eqn:Hex.
  - by apply exist_links_between.
  - rewrite Hsim, links_between_create.
    unfold link_connects. simpl. rewrite !N.eqb_refl. simpl. lia.
Qed.
Lemma task_tables content_id media_record_ids db :
  let db' := generate_content_media_record_links_task content_id media_record_ids db in
  documents db' = documents db ∧ videos db' = videos db.
Proof.
  intros db'. subst db'. rewrite task_as_fold.
  apply (foldl_invariant (λ db', documents db' = documents db ∧ videos db' = videos db));
    [done|].
  intros db' p _ [<- <-]. apply link_pair_tables.
Qed.

Lemma task_link_query content_id media_record_ids ids db :
  link_query (generate_content_media_record_links_task content_id media_record_ids db) ids
  = link_query db ids.
Proof.
  unfold link_query.
  by destruct (task_tables content_id media_record_ids db) as [-> ->].
Qed.

(** One run of the linker. *)
Lemma task_links_between content_id media_record_ids db (a b : link_query_row) :
  a ∈ link_query db media_record_ids → b ∈ link_query db media_record_ids →
  lq_mediaRecordId a ≠ lq_mediaRecordId b →
  (9 # 10 < Levenshtein_ratio (lq_text a) (lq_text b))%Q →
  links_between db (lq_id a) (lq_id b) ≤ 1 →
  links_between
    (generate_content_media_record_links_task content_id media_record_ids db)
    (lq_id a) (lq_id b) = 1.
Proof.
  intros Ha Hb Hne Hsim Hone. rewrite task_as_fold.
  set (pairs := candidate_pairs _).
  assert (links_between (foldl (link_pair content_id) db pairs) (lq_id a) (lq_id b) ≤ 1).
  { apply (foldl_invariant (λ db', links_between db' (lq_id a) (lq_id b) ≤ 1)); [done|].
    intros db' p _ Hle.
    destruct (link_pair_links_between content_id db' p (lq_id a) (lq_id b)); lia. }
  assert (0 < links_between (foldl (link_pair content_id) db pairs) (lq_id a) (lq_id b)).
  { apply (foldl_establish (λ db', 0 < links_between db' (lq_id a) (lq_id b)))
      with (x := (a, b)).
    - by apply candidate_pairs_complete.
    - intros db'. eapply link_pair_links; [done|].
      apply negb_true_iff, not_true_iff_false. intros Hle%Qle_bool_iff.
      by apply Qlt_not_le in Hsim.
    - intros db' p Hpos.
      destruct (link_pair_links_between content_id db' p (lq_id a) (lq_id b)); lia. }
  lia.
Qed.

(** C2: for segments [a] and [b] of two distinct media records of the
    grouping whose similarity exceeds 0.9, and a store that holds at most one
    link between them, running the linker once or more leaves exactly one
    link row between them: the second visit of the pair, in the other order
    or in a later run, finds the link and adds none. *)
Theorem link_content_exactly_one_link content_id media_record_ids db
    (a b : link_query_row) n :
  a ∈ link_query db media_record_ids → b ∈ link_query db media_record_ids →
  lq_mediaRecordId a ≠ lq_mediaRecordId b →
  (9 # 10 < Levenshtein_ratio (lq_text a) (lq_text b))%Q →
  links_between db (lq_id a) (lq_id b) ≤ 1 →
  links_between
    (Nat.iter (S n)
       (generate_content_media_record_links_task content_id media_record_ids) db)
    (lq_id a) (lq_id b) = 1.
Proof.
  intros Ha Hb Hne Hsim Hone.
  induction n as [|n IH].
  { by apply task_links_between. }
  set (db' := Nat.iter (S n) _ db) in *.
  change (Nat.iter (S (S n)) ?f db) with (f db').
  assert (link_query db' media_record_ids = link_query db media_record_ids) as Hq.
  { subst db'. clear IH. induction n as [|n IHn]; simpl.
    - apply task_link_query.
    - simpl in IHn. by rewrite task_link_query. }
  apply task_links_between; rewrite ?Hq; [done..|lia].
Qed.

(** The linker keeps the store free of duplicate links. *)
Lemma no_duplicate_links_task content_id media_record_ids db :
  no_duplicate_links db →
  no_duplicate_links
    (generate_content_media_record_links_task content_id media_record_ids db).
Proof.
  intros Hdb id1 id2. rewrite task_as_fold.
  apply (foldl_invariant (λ db', links_between db' id1 id2 ≤ 1)); [apply Hdb|].
  intros db' p _ Hle.
  destruct (link_pair_links_between content_id db' p id1 id2); lia.
Qed.

(** C6: a run of the linker only appends link rows, and every row it appends
    joins two fetched segments of the grouping whose media records differ. *)
Theorem link_content_links_distinct_media_records content media_record_ids db :
  ∃ new,
    media_record_links
      (generate_content_media_record_links_task content media_record_ids db)
    = media_record_links db ++ new
    ∧ Forall (λ l,
        content_id l = content
        ∧ ∃ a b,
            a ∈ link_query db media_record_ids
            ∧ b ∈ link_query db media_record_ids
            ∧ lq_id a = segment1_id l ∧ lq_id b = segment2_id l
            ∧ lq_mediaRecordId a ≠ lq_mediaRecordId b) new.
Proof.
  rewrite task_as_fold.
  apply (foldl_invariant (λ db', ∃ new,
           media_record_links db' = media_record_links db ++ new ∧ Forall _ new)).
  { exists []. by rewrite app_nil_r. }
  intros db' [a b] Hab (new & Hlinks & Hnew).
  apply candidate_pairs_sound in Hab as (Ha & Hb & Hne).
  unfold link_pair, link_segments. simpl.
  destruct (does_link_between_media_record_segments_exist _ _ _); [by exists new|].
  destruct (negb _); [|by exists new].
  eexists (new ++ [_]). simpl. split; [by rewrite Hlinks, <-app_assoc|].
  apply Forall_app. split; [done|]. apply Forall_singleton. simpl.
  split; [done|]. by exists a, b.
Qed.

(** With segment ids that are unique in the store, as primary keys drawn by
    [gen_random_uuid()] are, a segment has one media record, and the rows the
    linker appends never join two segments of one media record. *)
Lemma segment_of_media_record_unique db id m1 m2 :
  NoDup (segment_ids db) →
  segment_of_media_record db id m1 → segment_of_media_record db id m2 → m1 = m2.
Proof.
  unfold segment_ids. intros (Hdocs & Hdisjoint & Hvids)%NoDup_app.
  intros [(d1 & Hd1 & <- & <-)|(v1 & Hv1 & <- & <-)]
         [(d2 & Hd2 & Hid & <-)|(v2 & Hv2 & Hid & <-)].
  - by rewrite (NoDup_fmap_eq doc_id _ d2 d1 Hdocs).
  - destruct (Hdisjoint (doc_id d1)); [by apply list_elem_of_fmap_2|].
    rewrite <-Hid. by apply list_elem_of_fmap_2.
  - destruct (Hdisjoint (vid_id v1)); [|by apply list_elem_of_fmap_2].
    rewrite <-Hid. by apply list_elem_of_fmap_2.
  - by rewrite (NoDup_fmap_eq vid_id _ v2 v1 Hvids).
Qed.

Lemma link_query_segment db media_record_ids a :
  a ∈ link_query db media_record_ids →
  segment_of_media_record db (lq_id a) (lq_mediaRecordId a).
Proof.
  unfold link_query. rewrite elem_of_app, !list_elem_of_fmap.
  intros [(d & -> & Hd)|(v & -> & Hv)]; [left|right].
  - apply list_elem_of_filter in Hd as [_ Hd]. by exists d.
  - apply list_elem_of_filter in Hv as [_ Hv]. by exists v.
Qed.

Lemma link_content_never_links_one_media_record content media_record_ids db :
  NoDup (segment_ids db) →
  ∃ new,
    media_record_links
      (generate_content_media_record_links_task content media_record_ids db)
    = media_record_links db ++ new
    ∧ Forall (λ l, ∀ m,
        ¬ (segment_of_media_record db (segment1_id l) m
           ∧ segment_of_media_record db (segment2_id l) m)) new.
Proof.
  intros Hids. rewrite task_as_fold.
  apply (foldl_invariant (λ db', ∃ new,
           media_record_links db' = media_record_links db ++ new ∧ Forall _ new)).
  { exists []. by rewrite app_nil_r. }
  intros db' [a b] Hab (new & Hlinks & Hnew).
  apply candidate_pairs_sound in Hab as (Ha & Hb & Hne).
  unfold link_pair, link_segments. simpl.
  destruct (does_link_between_media_record_segments_exist _ _ _); [by exists new|].
  destruct (negb _); [|by exists new].
  eexists (new ++ [_]). simpl. split; [by rewrite Hlinks, <-app_assoc|].
  apply Forall_app. split; [done|]. apply Forall_singleton. simpl.
  intros m [H1 H2]. apply Hne.
  rewrite (segment_of_media_record_unique db _ _ m Hids
             (link_query_segment _ _ _ Ha) H1).
  by rewrite (segment_of_media_record_unique db _ _ m Hids
                (link_query_segment _ _ _ Hb) H2).
Qed.

(** C10: [create_link_between_media_record_segments] appends its row whatever
    the store holds; called twice with the same arguments it leaves two more
    rows between the two segments. *)
Theorem create_link_inserts_unconditionally db content segment_id other_segment_id :
  let db1 := create_link_between_media_record_segments db
               content segment_id other_segment_id in
  let db2 := create_link_between_media_record_segments db1
               content segment_id other_segment_id in
  let row := {| content_id := content; segment1_id := segment_id;
                segment2_id := other_segment_id |} in
  media_record_links db1 = media_record_links db ++ [row]
  ∧ media_record_links db2 = media_record_links db ++ [row; row]
  ∧ links_between db2 segment_id other_segment_id
    = links_between db segment_id other_segment_id + 2.
Proof.
  intros db1 db2 row. subst db1 db2 row. split; [done|]. split.
  - simpl. by rewrite <-app_assoc.
  - rewrite !links_between_create. unfold link_connects. simpl.
    rewrite !N.eqb_refl. simpl. lia.
Qed.
End linker.

(** ** Rows, search and ingestion *)

Section result_facts.
Context {A B : Type} (f : A → result B).

(** [mapM] in the [result] monad: a comprehension whose body may raise. *)
Lemma mapM_Ok l k : Forall2 (λ x y, f x = Ok y) l k → mapM f l = Ok k.
Proof. induction 1 as [|x y l k Hx _ IH]; [done|]. simpl. by rewrite Hx, IH. Qed.

Lemma mapM_fmap_Ok {C} (h : C → A) (g : C → B) l :
  (∀ x, f (h x) = Ok (g x)) → mapM f (h <$> l) = Ok (g <$> l).
Proof.
  intros Hf. apply mapM_Ok. induction l as [|x l IH]; by constructor.
Qed.

Lemma mapM_Raise e l x :
  x ∈ l → f x = Raise e →
  (∀ y, y ∈ l → f y = Raise e ∨ ∃ z, f y = Ok z) →
  mapM f l = Raise e.
Proof.
  intros Hx Hfx. induction l as [|y l IH]; intros Hall.
  { by apply elem_of_nil in Hx. }
  simpl. destruct (Hall y) as [Hy|[z Hy]]; [by left|by rewrite Hy|].
  rewrite Hy. cbn [mbind result_bind]. rewrite IH; [done| |].
  - apply elem_of_cons in Hx as [->|Hx]; [congruence|done].
  - intros y' Hy'. apply Hall. by right.
Qed.

Lemma mapM_Forall2 (R : A → B → Prop) l :
  (∀ x, x ∈ l → ∃ y, f x = Ok y ∧ R x y) →
  ∃ k, mapM f l = Ok k ∧ Forall2 R l k.
Proof.
  induction l as [|x l IH]; intros Hf.
  { exists []. split; [done|constructor]. }
  destruct (Hf x) as (y & Hy & HR); [by left|].
  destruct IH as (k & Hk & Hall); [intros x' Hx'; apply Hf; by right|].
  exists (y :: k). split; [|by constructor].
  simpl. by rewrite Hy, Hk.
Qed.
End result_facts.

Section rows.
Context `{Collaborators}.

(** Every fetched row has the columns [drop_foreign_columns] deletes, so the
    step never raises [KeyError]; the columns [id] and [score] survive it. *)
Lemma drop_foreign_columns_segment r :
  drop_foreign_columns (segment_dict_row r) = Ok (normalized_segment r).
Proof. unfold normalized_segment. by destruct r as [? ? [] ? ? ? ? ?]. Qed.

Lemma normalized_segment_id r : normalized_segment r !! "id" = Some (VUuid (seg_id r)).
Proof. unfold normalized_segment. by destruct r as [? ? [] ? ? ? ? ?]. Qed.

Lemma drop_foreign_columns_search r :
  drop_foreign_columns (search_dict_row r) = Ok (normalized_search_row r).
Proof. unfold normalized_search_row. by destruct r as [? [] ? ? ? ? ? ?]. Qed.

Lemma normalized_search_row_score r :
  getitem (normalized_search_row r) "score" = Ok (VFloat (sr_score r)).
Proof. unfold normalized_search_row. by destruct r as [? [] ? ? ? ? ? ?]. Qed.

(** ** search *)




(** ** get_links *)

Lemma segment_rows_ids db ids sid :
  sid ∈ seg_id <$> segment_rows db ids ↔ sid ∈ ids ∧ sid ∈ segment_ids db.
Proof.
  unfold segment_rows, segment_ids.
  rewrite fmap_app, <-!list_fmap_compose, !elem_of_app, !list_elem_of_fmap.
  setoid_rewrite list_elem_of_filter. setoid_rewrite sql_any_elem_of.
  split.
  - intros [(d & -> & ? & ?)|(v & -> & ? & ?)]; eauto 6.
  - intros [Hin [(d & -> & ?)|(v & -> & ?)]]; [left|right]; eauto.
Qed.

(** [next(...)] finds the first fetched segment of the id, or raises
    [StopIteration] when there is none. *)
Lemma next_with_id_found rows sid :
  sid ∈ seg_id <$> rows →
  ∃ r, seg_id r = sid ∧ next_with_id (normalized_segment <$> rows) sid
                        = Ok (normalized_segment r).
Proof.
  induction rows as [|r rows IH]; intros Hin; [by apply elem_of_nil in Hin|].
  cbn [fmap list_fmap next_with_id]. unfold getitem.
  rewrite normalized_segment_id. cbn [mbind result_bind].
  case_decide as Hid.
  - exists r. split; [congruence|done].
  - apply IH. apply elem_of_cons in Hin as [->|Hin]; [done|done].
Qed.

Lemma next_with_id_missing rows sid :
  sid ∉ seg_id <$> rows →
  next_with_id (normalized_segment <$> rows) sid = Raise StopIteration.
Proof.
  induction rows as [|r rows IH]; intros Hin; [done|].
  cbn [fmap list_fmap next_with_id]. unfold getitem.
  rewrite normalized_segment_id. cbn [mbind result_bind].
  apply not_elem_of_cons in Hin as [Hne Hin].
  rewrite decide_False by congruence. by apply IH.
Qed.

(** [all_segment_ids] holds both ends of every link of the content. *)
Lemma all_segment_ids_elem_of (links : list media_record_links_row) l :
  l ∈ links →
  let ids := foldl (λ ids l, ids ++ [segment1_id l] ++ [segment2_id l]) [] links in
  segment1_id l ∈ ids ∧ segment2_id l ∈ ids.
Proof.
  intros Hl ids. subst ids.
  apply (foldl_establish (λ ids, segment1_id l ∈ ids ∧ segment2_id l ∈ ids))
    with (x := l); [done|..].
  - intros ids. rewrite !elem_of_app, !list_elem_of_singleton. auto.
  - intros ids l' [??]. rewrite !elem_of_app. auto.
Qed.

(** C7, as the code has it: when every link stored for the content refers to
    segments the store holds, [get_media_record_links_for_content] returns
    one pair per link, each side carrying the id the link names; a content
    without links gets the empty list. *)
Theorem get_links_intact db content :
  Forall (λ l, content_id l = content →
               segment1_id l ∈ segment_ids db ∧ segment2_id l ∈ segment_ids db)
         (media_record_links db) →
  ∃ pairs,
    get_media_record_links_for_content db content = Ok pairs
    ∧ Forall2 (λ l p,
         segment1 p !! "id" = Some (VUuid (segment1_id l))
         ∧ segment2 p !! "id" = Some (VUuid (segment2_id l)))
        (filter (λ l, content_id l = content) (media_record_links db)) pairs.
Proof.
  intros Hintact. unfold get_media_record_links_for_content.
  set (result := filter _ _).
  set (ids := foldl _ _ _).
  unfold segments_query.
  rewrite (mapM_fmap_Ok _ _ normalized_segment) by apply drop_foreign_columns_segment.
  cbn [mbind result_bind].
  assert (∀ l, l ∈ result →
            segment1_id l ∈ seg_id <$> segment_rows db ids
            ∧ segment2_id l ∈ seg_id <$> segment_rows db ids) as Hfound.
  { intros l Hl. rewrite !segment_rows_ids.
    destruct (all_segment_ids_elem_of result l Hl) as [H1 H2].
    apply list_elem_of_filter in Hl as [Hc Hl].
    rewrite Forall_forall in Hintact. destruct (Hintact l Hl Hc). done. }
  apply mapM_Forall2. intros l Hl.
  destruct (Hfound l Hl) as [H1 H2].
  destruct (next_with_id_found _ _ H1) as (r1 & Hr1 & ->).
  destruct (next_with_id_found _ _ H2) as (r2 & Hr2 & ->).
  eexists. split; [done|]. simpl. by rewrite !normalized_segment_id, Hr1, Hr2.
Qed.

(** Conversely, one link of the content whose segment the store no longer
    holds makes the whole call raise. *)
Lemma get_links_missing_segment db content l :
  l ∈ media_record_links db → content_id l = content →
  segment1_id l ∉ segment_ids db ∨ segment2_id l ∉ segment_ids db →
  get_media_record_links_for_content db content = Raise StopIteration.
Proof.
  intros Hl Hc Hmissing. unfold get_media_record_links_for_content.
  set (result := filter _ _).
  set (ids := foldl _ _ _).
  unfold segments_query.
  rewrite (mapM_fmap_Ok _ _ normalized_segment) by apply drop_foreign_columns_segment.
  cbn [mbind result_bind].
  assert (∀ sid, next_with_id (normalized_segment <$> segment_rows db ids) sid
                 = Raise StopIteration
                 ∨ ∃ x, next_with_id (normalized_segment <$> segment_rows db ids) sid
                        = Ok x) as Hnext.
  { intros sid. destruct (decide (sid ∈ seg_id <$> segment_rows db ids)) as [Hin|Hin].
    - right. destruct (next_with_id_found _ _ Hin) as (r & _ & ->). eauto.
    - left. by apply next_with_id_missing. }
  apply mapM_Raise with (x := l).
  - by apply list_elem_of_filter.
  - destruct Hmissing as [Hm|Hm].
    + rewrite (next_with_id_missing _ (segment1_id l)); [reflexivity|].
      rewrite segment_rows_ids. tauto.
    + destruct (Hnext (segment1_id l)) as [->|[x ->]]; [reflexivity|].
      cbn [mbind result_bind].
      rewrite (next_with_id_missing _ (segment2_id l)); [reflexivity|].
      rewrite segment_rows_ids. tauto.
  - intros l' _.
    destruct (Hnext (segment1_id l')) as [->|[x1 ->]]; [by left|].
    destruct (Hnext (segment2_id l')) as [->|[x2 ->]]; [by left|].
    right. eauto.
Qed.

(** C8: for a media record whose type is none of DOCUMENT, PRESENTATION and
    VIDEO the ingestion task raises an error whose message ends in that type,
    and leaves the store as it found it. *)
Theorem ingest_unsupported_type media_record_id db media_record :
  get_media_record_type_and_download_url media_record_id = Ok media_record →
  type media_record ≠ "DOCUMENT" →
  type media_record ≠ "PRESENTATION" →
  type media_record ≠ "VIDEO" →
  ingest_media_record_task media_record_id db
  = (db, Raise (ValueError ("Asked to ingest unsupported media record type of type "
                            +:+ type media_record))).
Proof.
  intros Hget Hdoc Hpres Hvid. unfold ingest_media_record_task. rewrite Hget.
  apply String.eqb_neq in Hdoc, Hpres, Hvid. by rewrite Hdoc, Hpres, Hvid.
Qed.
End rows.

(** ** Deletion *)

Lemma delete_entries_removes_segments db media_record_id :
  let db' := delete_entries_of_media_record db media_record_id in
  Forall (λ d, doc_media_record d ≠ media_record_id) (documents db')
  ∧ Forall (λ v, vid_media_record v ≠ media_record_id) (videos db').
Proof.
  simpl. split; apply Forall_forall; intros x Hx;
    by apply list_elem_of_filter in Hx as [? _].
Qed.

(** Neither deletion nor ingestion adds a link, so both keep the store free
    of duplicate links. *)
Lemma no_duplicate_links_delete db media_record_id :
  no_duplicate_links db →
  no_duplicate_links (delete_entries_of_media_record db media_record_id).
Proof.
  intros Hdb id1 id2. specialize (Hdb id1 id2).
  unfold links_between in *. simpl.
  etrans; [apply length_filter_filter|done].
Qed.

(** The loop over the embedding results: what every store it passes through
    keeps, and how it goes on after the results that were accepted. *)
Lemma execute_each_invariant {A} (P : database → Prop)
    (execute : database → A → result database) l : ∀ db,
  P db →
  (∀ db x db', x ∈ l → P db → execute db x = Ok db' → P db') →
  P (execute_each execute db l).1.
Proof.
  induction l as [|x l IH]; intros db Hdb Hstep; [done|]. simpl.
  destruct (execute db x) as [db'|e] eqn:Hx; [|done].
  apply IH.
  - apply (Hstep db x); [by left|done..].
  - intros db1 y db2 Hy. apply Hstep. by right.
Qed.

Lemma execute_each_app {A} (execute : database → A → result database) l1 l2 :
  ∀ db db1,
  execute_each execute db l1 = (db1, Ok ()) →
  execute_each execute db (l1 ++ l2) = execute_each execute db1 l2.
Proof.
  induction l1 as [|x l1 IH]; intros db db1; simpl.
  { by intros [= ->]. }
  destruct (execute db x) as [db'|e]; [apply IH|done].
Qed.

Lemma check_text_Ok s : contains_NUL s = false → check_text s = Ok ().
Proof. unfold check_text. by intros ->. Qed.

Lemma check_text_inv s : check_text s = Ok () → contains_NUL s = false.
Proof. unfold check_text. by destruct (contains_NUL s). Qed.

Lemma check_int_Ok n : (- 2 ^ 31 ≤ n < 2 ^ 31)%Z → check_int n = Ok ().
Proof. intros Hn. unfold check_int. by rewrite decide_True. Qed.

Lemma check_int_inv n : check_int n = Ok () → (- 2 ^ 31 ≤ n < 2 ^ 31)%Z.
Proof. unfold check_int. by case_decide. Qed.

Lemma check_vector_Ok n v : length v = n → check_vector n v = Ok ().
Proof. intros Hv. unfold check_vector. by rewrite decide_True. Qed.

Lemma check_vector_inv n v : check_vector n v = Ok () → length v = n.
Proof. unfold check_vector. by case_decide. Qed.

Lemma check_text_outcome s :
  check_text s = Ok () ∨ ∃ msg, check_text s = Raise (DatabaseError msg).
Proof. unfold check_text. destruct (contains_NUL s); by eauto. Qed.

Lemma check_int_outcome n :
  check_int n = Ok () ∨ ∃ msg, check_int n = Raise (DatabaseError msg).
Proof. unfold check_int. case_decide; by eauto. Qed.

Lemma check_vector_outcome n v :
  check_vector n v = Ok () ∨ ∃ msg, check_vector n v = Raise (DatabaseError msg).
Proof. unfold check_vector. case_decide; by eauto. Qed.

Section inserts.
Context `{Collaborators}.

Lemma insert_document_Ok media_record_id db e :
  documents_accepts e →
  insert_document media_record_id db e
  = Ok {| documents := documents db ++
            [{| doc_id := gen_random_uuid (uuid_draws db);
                doc_text := pdf_text e;
                doc_media_record := media_record_id;
                doc_page := pdf_page_number e;
                doc_embedding := pdf_embedding e |}];
          videos := videos db;
          media_record_links := media_record_links db;
          uuid_draws := S (uuid_draws db) |}.
Proof.
  intros (Htext & Hpage & Hdim). unfold insert_document.
  by rewrite check_text_Ok, check_int_Ok, check_vector_Ok.
Qed.

Lemma insert_document_outcome media_record_id db e :
  (documents_accepts e ∧ ∃ db', insert_document media_record_id db e = Ok db')
  ∨ (¬ documents_accepts e
     ∧ ∃ msg, insert_document media_record_id db e = Raise (DatabaseError msg)).
Proof.
  unfold insert_document.
  destruct (check_text_outcome (pdf_text e)) as [Htext|[msg Htext]]; rewrite Htext.
  2:{ right. split; [|by exists msg]. intros (Hok & _).
      apply check_text_Ok in Hok. congruence. }
  destruct (check_int_outcome (pdf_page_number e)) as [Hpage|[msg Hpage]]; rewrite Hpage.
  2:{ right. split; [|by exists msg]. intros (_ & Hok & _).
      apply check_int_Ok in Hok. congruence. }
  destruct (check_vector_outcome 1024 (pdf_embedding e)) as [Hdim|[msg Hdim]];
    rewrite Hdim.
  2:{ right. split; [|by exists msg]. intros (_ & _ & Hok).
      apply (check_vector_Ok 1024) in Hok. congruence. }
  left. split; [|by eauto].
  by apply check_text_inv in Htext; apply check_int_inv in Hpage;
    apply check_vector_inv in Hdim.
Qed.

Lemma insert_video_Ok media_record_id db e :
  videos_accepts e →
  insert_video media_record_id db e
  = Ok {| documents := documents db;
          videos := videos db ++
            [{| vid_id := gen_random_uuid (uuid_draws db);
                vid_screen_text := ve_screen_text e;
                vid_transcript := ve_transcript e;
                vid_media_record := media_record_id;
                vid_start_time := ve_start_time e;
                vid_embedding := ve_embedding e |}];
          media_record_links := media_record_links db;
          uuid_draws := S (uuid_draws db) |}.
Proof.
  intros (Hscreen & Htranscript & Hstart & Hdim). unfold insert_video.
  by rewrite !check_text_Ok, check_int_Ok, check_vector_Ok.
Qed.

Lemma insert_video_outcome media_record_id db e :
  (videos_accepts e ∧ ∃ db', insert_video media_record_id db e = Ok db')
  ∨ (¬ videos_accepts e
     ∧ ∃ msg, insert_video media_record_id db e = Raise (DatabaseError msg)).
Proof.
  unfold insert_video.
  destruct (check_text_outcome (ve_screen_text e)) as [Hscreen|[msg Hscreen]];
    rewrite Hscreen.
  2:{ right. split; [|by exists msg]. intros (Hok & _).
      apply check_text_Ok in Hok. congruence. }
  destruct (check_text_outcome (ve_transcript e)) as [Htranscript|[msg Htranscript]];
    rewrite Htranscript.
  2:{ right. split; [|by exists msg]. intros (_ & Hok & _).
      apply check_text_Ok in Hok. congruence. }
  destruct (check_int_outcome (ve_start_time e)) as [Hstart|[msg Hstart]]; rewrite Hstart.
  2:{ right. split; [|by exists msg]. intros (_ & _ & Hok & _).
      apply check_int_Ok in Hok. congruence. }
  destruct (check_vector_outcome 1024 (ve_embedding e)) as [Hdim|[msg Hdim]];
    rewrite Hdim.
  2:{ right. split; [|by exists msg]. intros (_ & _ & _ & Hok).
      apply (check_vector_Ok 1024) in Hok. congruence. }
  left. split; [|by eauto].
  by apply check_text_inv in Hscreen; apply check_text_inv in Htranscript;
    apply check_int_inv in Hstart; apply check_vector_inv in Hdim.
Qed.

(** An accepted INSERT appends its row and nothing else. *)
Lemma insert_document_inv media_record_id db e db' :
  insert_document media_record_id db e = Ok db' →
  documents_accepts e
  ∧ db' = {| documents := documents db ++
               [{| doc_id := gen_random_uuid (uuid_draws db);
                   doc_text := pdf_text e;
                   doc_media_record := media_record_id;
                   doc_page := pdf_page_number e;
                   doc_embedding := pdf_embedding e |}];
             videos := videos db;
             media_record_links := media_record_links db;
             uuid_draws := S (uuid_draws db) |}.
Proof.
  intros Hins.
  destruct (insert_document_outcome media_record_id db e)
    as [[Hok _]|[_ [msg Hraise]]]; [|congruence].
  split; [done|]. rewrite insert_document_Ok in Hins by done. congruence.
Qed.

Lemma insert_video_inv media_record_id db e db' :
  insert_video media_record_id db e = Ok db' →
  videos_accepts e
  ∧ db' = {| documents := documents db;
             videos := videos db ++
               [{| vid_id := gen_random_uuid (uuid_draws db);
                   vid_screen_text := ve_screen_text e;
                   vid_transcript := ve_transcript e;
                   vid_media_record := media_record_id;
                   vid_start_time := ve_start_time e;
                   vid_embedding := ve_embedding e |}];
             media_record_links := media_record_links db;
             uuid_draws := S (uuid_draws db) |}.
Proof.
  intros Hins.
  destruct (insert_video_outcome media_record_id db e)
    as [[Hok _]|[_ [msg Hraise]]]; [|congruence].
  split; [done|]. rewrite insert_video_Ok in Hins by done. congruence.
Qed.
End inserts.

Lemma ingest_media_record_task_links `{Collaborators} media_record_id db :
  media_record_links (ingest_media_record_task media_record_id db).1
  = media_record_links db.
Proof.
  unfold ingest_media_record_task.
  destruct (get_media_record_type_and_download_url _) as [media_record|e]; [|done].
  destruct (_ || _).
  - destruct (pdf_generate_embedding _) as [results|e]; [|done].
    apply (execute_each_invariant
             (λ db', media_record_links db' = media_record_links db)); [done|].
    by intros db1 x db2 _ Hlinks [_ ->]%insert_document_inv.
  - destruct (String.eqb _ _); [|done].
    destruct (video_generate_embeddings _) as [results|e]; [|done].
    apply (execute_each_invariant
             (λ db', media_record_links db' = media_record_links db)); [done|].
    by intros db1 x db2 _ Hlinks [_ ->]%insert_video_inv.
Qed.

Lemma no_duplicate_links_ingest `{Collaborators} media_record_id db :
  no_duplicate_links db →
  no_duplicate_links (ingest_media_record_task media_record_id db).1.
Proof.
  intros Hdb id1 id2. unfold links_between.
  rewrite ingest_media_record_task_links. apply Hdb.
Qed.

(** The links the first DELETE keeps: all but those whose segment id equals
    the media record id. *)
Lemma delete_entries_links db media_record_id l :
  l ∈ media_record_links (delete_entries_of_media_record db media_record_id)
  ↔ l ∈ media_record_links db
    ∧ segment1_id l ≠ media_record_id ∧ segment2_id l ≠ media_record_id.
Proof.
  simpl. rewrite list_elem_of_filter. split.
  - intros [Hne Hl]. split; [done|]. split; intros Heq; apply Hne; auto.
  - intros (Hl & H1 & H2). split; [|done]. by intros [?|?].
Qed.

(** C1 on the store where document 10 (segment 1) and video 20 (segment 2)
    are linked: deleting record 10 removes its segment, and the link that
    names segment 1 stays, since the DELETE on the link table compares the
    segment columns with the media record id. *)
Theorem delete_entries_keeps_links_of_deleted_segments :
  let db := delete_entries_of_media_record example.linked_db 10%N in
  documents db = []
  ∧ videos db = [example.frame]
  ∧ media_record_links db
    = [{| content_id := 100%N; segment1_id := 1%N; segment2_id := 2%N |}]
  ∧ 1%N ∈ segment_ids example.linked_db
  ∧ 1%N ∉ segment_ids db.
Proof.
  repeat split; [by left|].
  intros Hin. apply list_elem_of_singleton in Hin. discriminate.
Qed.

(** ** Examples on the small deployment *)

(** C2 on the store holding slide 1 of document 10 and frame 2 of video 20,
    with equal texts: two runs of the linker leave one link. *)
Lemma link_content_exactly_one_link_witness :
  let a := link_document_result example.slide in
  let b := link_video_result example.frame in
  (a ∈ link_query example.ingested_db [10%N; 20%N]
   ∧ b ∈ link_query example.ingested_db [10%N; 20%N]
   ∧ lq_mediaRecordId a ≠ lq_mediaRecordId b
   ∧ (9 # 10 < @Levenshtein_ratio example.collaborators (lq_text a) (lq_text b))%Q
   ∧ links_between example.ingested_db (lq_id a) (lq_id b) ≤ 1)
  ∧ links_between
      (Nat.iter 2
         (@generate_content_media_record_links_task example.collaborators
            100%N [10%N; 20%N])
         example.ingested_db)
      (lq_id a) (lq_id b) = 1.
Proof.
  intros a b.
  assert (a ∈ link_query example.ingested_db [10%N; 20%N]) as Ha by (by left).
  assert (b ∈ link_query example.ingested_db [10%N; 20%N]) as Hb by (right; by left).
  assert (lq_mediaRecordId a ≠ lq_mediaRecordId b) as Hne by done.
  assert (9 # 10 < @Levenshtein_ratio example.collaborators (lq_text a) (lq_text b))%Q
    as Hsim by reflexivity.
  assert (links_between example.ingested_db (lq_id a) (lq_id b) ≤ 1) as Hone
    by (vm_compute; lia).
  split; [done|].
  exact (@link_content_exactly_one_link example.collaborators
           100%N [10%N; 20%N] example.ingested_db a b 1 Ha Hb Hne Hsim Hone).
Defined.

(** C3 at a concrete input: a quiz and a document are queued; the quiz task
    raises, the thread dies, and the document is never ingested. *)
Lemma quiz_task_stops_worker :
  let s := @run example.collaborators (init example.empty_db)
             [Put (example.ingest 9); Put (example.ingest 10);
              Worker; Worker; Worker] in
  _background_task_thread s
  = Died (ValueError "Asked to ingest unsupported media record type of type QUIZ")
  ∧ (executed s).*1 = [example.ingest 9]
  ∧ _background_task_queue s = [example.ingest 10]
  ∧ documents (_db_conn s) = [].
Proof. by vm_compute. Qed.

(** C3, as the code has it, on the queue holding a quiz and a document. *)
Lemma task_exception_ends_worker_witness :
  let s := @run example.collaborators (init example.empty_db)
             [Put (example.ingest 9); Put (example.ingest 10)] in
  let e := ValueError "Asked to ingest unsupported media record type of type QUIZ" in
  (_background_task_thread s = Running
   ∧ _keep_background_task_thread_alive s = true
   ∧ PriorityQueue.get (_background_task_queue s)
     = Ok (example.ingest 9, [example.ingest 10])
   ∧ @run_task example.collaborators (task (example.ingest 9)) (_db_conn s)
     = (example.empty_db, Raise e))
  ∧ _background_task_thread (@_background_task_runner example.collaborators s) = Died e
  ∧ _background_task_queue (@_background_task_runner example.collaborators s)
    = [example.ingest 10]
  ∧ ∀ events,
      _background_task_thread
        (@run example.collaborators
           (@_background_task_runner example.collaborators s) events) = Died e
      ∧ executed
          (@run example.collaborators
             (@_background_task_runner example.collaborators s) events)
        = executed s ++ [(example.ingest 9, Raise e)].
Proof.
  intros s e. split; [by vm_compute|].
  apply (@task_exception_ends_worker example.collaborators s
           (example.ingest 9) [example.ingest 10] example.empty_db e);
    reflexivity.
Defined.

(** C4 at a concrete input: four ingestion tasks of priority 0 are put in the
    order 1, 2, 3, 4 and then run; the third is executed before the second. *)
Lemma equal_priority_not_fifo :
  let s := @run example.collaborators (init example.empty_db)
             [Put (example.ingest 1); Put (example.ingest 2);
              Put (example.ingest 3); Put (example.ingest 4);
              Worker; Worker; Worker; Worker] in
  (executed s).*1
  = [example.ingest 1; example.ingest 3; example.ingest 2; example.ingest 4].
Proof. by vm_compute. Qed.

(** C5 on a queue to which the item of priority 1 was put first. *)
Lemma priority_0_runs_before_priority_1_witness :
  let s := @run example.collaborators (init example.empty_db)
             [Put (example.late 20); Put (example.ingest 10)] in
  let pre := [(example.ingest 10, Ok ())] in
  (priority (example.ingest 10) = 0%Z
   ∧ priority (example.late 20) = 1%Z
   ∧ example.ingest 10 ∈ _background_task_queue s
   ∧ example.late 20 ∈ _background_task_queue s
   ∧ executed (@run example.collaborators s [Worker; Worker])
     = executed s ++ pre ++ (example.late 20, Ok ()) :: [])
  ∧ (example.ingest 10, Ok ()) ∈ pre.
Proof.
  intros s pre.
  assert (example.ingest 10 ∈ _background_task_queue s) as H1 by (by left).
  assert (example.late 20 ∈ _background_task_queue s) as H2 by (right; by left).
  assert (executed (@run example.collaborators s [Worker; Worker])
          = executed s ++ pre ++ (example.late 20, Ok ()) :: []) as Hlog by reflexivity.
  split; [done|].
  exact (@priority_0_runs_before_priority_1 example.collaborators example.empty_db
           [Put (example.late 20); Put (example.ingest 10)] [Worker; Worker]
           (example.ingest 10) (example.late 20) pre (Ok ()) []
           eq_refl eq_refl H1 H2 Hlog).
Defined.

(** C7 at a concrete input: record 10 is deleted from the linked store, the
    link of content 100 still names its segment, and reading the links of
    content 100 raises. *)
Lemma get_links_raises_on_missing_segment :
  get_media_record_links_for_content
    (delete_entries_of_media_record example.linked_db 10%N) 100%N
  = Raise StopIteration.
Proof. by vm_compute. Qed.

(** C7, as the code has it, on the linked store with both segments in
    place. *)
Lemma get_links_intact_witness :
  Forall (λ l, content_id l = 100%N →
               segment1_id l ∈ segment_ids example.linked_db
               ∧ segment2_id l ∈ segment_ids example.linked_db)
         (media_record_links example.linked_db)
  ∧ ∃ pairs,
      get_media_record_links_for_content example.linked_db 100%N = Ok pairs
      ∧ Forall2 (λ l p,
           segment1 p !! "id" = Some (VUuid (segment1_id l))
           ∧ segment2 p !! "id" = Some (VUuid (segment2_id l)))
          (filter (λ l, content_id l = 100%N) (media_record_links example.linked_db))
          pairs.
Proof.
  assert (Forall (λ l, content_id l = 100%N →
               segment1_id l ∈ segment_ids example.linked_db
               ∧ segment2_id l ∈ segment_ids example.linked_db)
         (media_record_links example.linked_db)) as Hintact.
  { apply Forall_singleton. intros _. split; [by left|right; by left]. }
  split; [done|].
  exact (get_links_intact example.linked_db 100%N Hintact).
Defined.

(** C8 on the quiz record 9. *)
Lemma ingest_unsupported_type_witness :
  let media_record :=
    {| internalDownloadUrl := "http://media/download"; type := "QUIZ" |} in
  (@get_media_record_type_and_download_url example.collaborators 9%N = Ok media_record
   ∧ type media_record ≠ "DOCUMENT"
   ∧ type media_record ≠ "PRESENTATION"
   ∧ type media_record ≠ "VIDEO")
  ∧ @ingest_media_record_task example.collaborators 9%N example.ingested_db
    = (example.ingested_db,
       Raise (ValueError "Asked to ingest unsupported media record type of type QUIZ")).
Proof.
  intros media_record. split; [done|].
  exact (@ingest_unsupported_type example.collaborators 9%N example.ingested_db
           media_record eq_refl
           ltac:(discriminate) ltac:(discriminate) ltac:(discriminate)).
Defined.



(** * The service beyond the worker and the linker's main path *)

(** ** Ingestion and deletion *)

Section ingest_delete.
Context `{Collaborators}.
Implicit Types db : database.

Lemma insert_documents_spec media_record_id results : ∀ db,
  Forall documents_accepts results →
  ∃ db' new,
    execute_each (insert_document media_record_id) db results = (db', Ok ())
    ∧ documents db' = documents db ++ new
    ∧ Forall2 (λ e d, doc_text d = pdf_text e
                      ∧ doc_media_record d = media_record_id
                      ∧ doc_page d = pdf_page_number e
                      ∧ doc_embedding d = pdf_embedding e) results new
    ∧ videos db' = videos db
    ∧ media_record_links db' = media_record_links db.
Proof.
  induction results as [|e results IH]; intros db Hok; simpl.
  { exists db, []. by rewrite app_nil_r. }
  apply Forall_cons in Hok as [He Hok]. rewrite insert_document_Ok by done.
  destruct (IH (Build_database
                  (documents db ++
                     [{| doc_id := gen_random_uuid (uuid_draws db);
                         doc_text := pdf_text e;
                         doc_media_record := media_record_id;
                         doc_page := pdf_page_number e;
                         doc_embedding := pdf_embedding e |}])
                  (videos db) (media_record_links db) (S (uuid_draws db))) Hok)
    as (db' & new & Hrun & Hdocs & Hnew & Hv & Hl).
  exists db'. eexists (_ :: new). simpl in *. rewrite Hdocs, <-app_assoc. simpl.
  split; [done|]. split; [done|]. split; [|done]. by constructor.
Qed.

Lemma insert_videos_spec media_record_id results : ∀ db,
  Forall videos_accepts results →
  ∃ db' new,
    execute_each (insert_video media_record_id) db results = (db', Ok ())
    ∧ videos db' = videos db ++ new
    ∧ Forall2 (λ e v, vid_screen_text v = ve_screen_text e
                      ∧ vid_transcript v = ve_transcript e
                      ∧ vid_media_record v = media_record_id
                      ∧ vid_start_time v = ve_start_time e
                      ∧ vid_embedding v = ve_embedding e) results new
    ∧ documents db' = documents db
    ∧ media_record_links db' = media_record_links db.
Proof.
  induction results as [|e results IH]; intros db Hok; simpl.
  { exists db, []. by rewrite app_nil_r. }
  apply Forall_cons in Hok as [He Hok]. rewrite insert_video_Ok by done.
  destruct (IH (Build_database
                  (documents db)
                  (videos db ++
                     [{| vid_id := gen_random_uuid (uuid_draws db);
                         vid_screen_text := ve_screen_text e;
                         vid_transcript := ve_transcript e;
                         vid_media_record := media_record_id;
                         vid_start_time := ve_start_time e;
                         vid_embedding := ve_embedding e |}])
                  (media_record_links db) (S (uuid_draws db))) Hok)
    as (db' & new & Hrun & Hvids & Hnew & Hd & Hl).
  exists db'. eexists (_ :: new). simpl in *. rewrite Hvids, <-app_assoc. simpl.
  split; [done|]. split; [done|]. split; [|done]. by constructor.
Qed.

(** Ingesting a PRESENTATION or DOCUMENT record whose embeddings were
    generated and fit the columns of [documents] (no NUL in the text, a page
    number of 32 bits, an embedding of 1024 dimensions) returns, leaves the
    videos and the links alone and appends one document row for each
    embedding result, in their order, carrying its text, page number and
    embedding and the id of the media record. *)
Theorem ingest_document_rows media_record_id db media_record results :
  get_media_record_type_and_download_url media_record_id = Ok media_record →
  type media_record = "PRESENTATION" ∨ type media_record = "DOCUMENT" →
  pdf_generate_embedding (internalDownloadUrl media_record) = Ok results →
  Forall documents_accepts results →
  let db' := (ingest_media_record_task media_record_id db).1 in
  (ingest_media_record_task media_record_id db).2 = Ok ()
  ∧ videos db' = videos db
  ∧ media_record_links db' = media_record_links db
  ∧ ∃ new,
      documents db' = documents db ++ new
      ∧ Forall2 (λ e d, doc_text d = pdf_text e
                        ∧ doc_media_record d = media_record_id
                        ∧ doc_page d = pdf_page_number e
                        ∧ doc_embedding d = pdf_embedding e) results new.
Proof.
  intros Hget Htype Hgen Hfit. unfold ingest_media_record_task. rewrite Hget.
  assert (String.eqb (type media_record) "PRESENTATION"
          || String.eqb (type media_record) "DOCUMENT" = true) as ->.
  { destruct Htype as [-> | ->]; done. }
  rewrite Hgen.
  destruct (insert_documents_spec media_record_id results db Hfit)
    as (db' & new & -> & ? & ? & ? & ?).
  simpl. eauto 10.
Qed.

(** Ingesting a VIDEO record whose embeddings were generated and fit the
    columns of [videos] (no NUL in the screen text or the transcript, a start
    time of 32 bits, an embedding of 1024 dimensions) returns, leaves the
    documents and the links alone and appends one video row for each
    embedding result, in their order, carrying its screen text, transcript,
    start time and embedding and the id of the media record. *)
Theorem ingest_video_rows media_record_id db media_record results :
  get_media_record_type_and_download_url media_record_id = Ok media_record →
  type media_record = "VIDEO" →
  video_generate_embeddings (internalDownloadUrl media_record) = Ok results →
  Forall videos_accepts results →
  let db' := (ingest_media_record_task media_record_id db).1 in
  (ingest_media_record_task media_record_id db).2 = Ok ()
  ∧ documents db' = documents db
  ∧ media_record_links db' = media_record_links db
  ∧ ∃ new,
      videos db' = videos db ++ new
      ∧ Forall2 (λ e v, vid_screen_text v = ve_screen_text e
                        ∧ vid_transcript v = ve_transcript e
                        ∧ vid_media_record v = media_record_id
                        ∧ vid_start_time v = ve_start_time e
                        ∧ vid_embedding v = ve_embedding e) results new.
Proof.
  intros Hget Htype Hgen Hfit. unfold ingest_media_record_task. rewrite Hget, Htype.
  simpl. rewrite Hgen.
  destruct (insert_videos_spec media_record_id results db Hfit)
    as (db' & new & -> & ? & ? & ? & ?).
  simpl. eauto 10.
Qed.

(** The INSERTs of an ingestion are not undone: when an embedding result does
    not fit the columns of [documents], the coroutine raises a database
    error at it, the rows of the results before it stay in the table, and
    nothing of the results after it is written. *)
Theorem ingest_document_refused_row
    media_record_id db media_record accepted refused rest :
  get_media_record_type_and_download_url media_record_id = Ok media_record →
  type media_record = "PRESENTATION" ∨ type media_record = "DOCUMENT" →
  pdf_generate_embedding (internalDownloadUrl media_record)
  = Ok (accepted ++ refused :: rest) →
  Forall documents_accepts accepted →
  ¬ documents_accepts refused →
  let db' := (ingest_media_record_task media_record_id db).1 in
  (∃ msg, (ingest_media_record_task media_record_id db).2 = Raise (DatabaseError msg))
  ∧ videos db' = videos db
  ∧ media_record_links db' = media_record_links db
  ∧ ∃ new,
      documents db' = documents db ++ new
      ∧ Forall2 (λ e d, doc_text d = pdf_text e
                        ∧ doc_media_record d = media_record_id
                        ∧ doc_page d = pdf_page_number e
                        ∧ doc_embedding d = pdf_embedding e) accepted new.
Proof.
  intros Hget Htype Hgen Hfit Hrefused. unfold ingest_media_record_task. rewrite Hget.
  assert (String.eqb (type media_record) "PRESENTATION"
          || String.eqb (type media_record) "DOCUMENT" = true) as ->.
  { destruct Htype as [-> | ->]; done. }
  rewrite Hgen.
  destruct (insert_documents_spec media_record_id accepted db Hfit)
    as (db' & new & Hrun & ? & ? & ? & ?).
  rewrite (execute_each_app _ _ _ _ _ Hrun). simpl.
  destruct (insert_document_outcome media_record_id db' refused)
    as [[Hok _]|[_ [msg ->]]]; [done|].
  simpl. eauto 10.
Qed.

(** Whatever the type and whether it fails or not, ingestion only appends
    rows of the media record it was given. *)
Lemma ingest_only_appends media_record_id db :
  let db' := (ingest_media_record_task media_record_id db).1 in
  ∃ new_documents new_videos,
    documents db' = documents db ++ new_documents
    ∧ videos db' = videos db ++ new_videos
    ∧ Forall (λ d, doc_media_record d = media_record_id) new_documents
    ∧ Forall (λ v, vid_media_record v = media_record_id) new_videos
    ∧ media_record_links db' = media_record_links db.
Proof.
  set (appended db' := ∃ new_documents new_videos,
    documents db' = documents db ++ new_documents
    ∧ videos db' = videos db ++ new_videos
    ∧ Forall (λ d, doc_media_record d = media_record_id) new_documents
    ∧ Forall (λ v, vid_media_record v = media_record_id) new_videos
    ∧ media_record_links db' = media_record_links db).
  assert (appended db) as Hsame.
  { exists [], []. by rewrite !app_nil_r. }
  unfold ingest_media_record_task.
  destruct (get_media_record_type_and_download_url _) as [media_record|e]; [|done].
  destruct (_ || _).
  - destruct (pdf_generate_embedding _) as [results|e]; [|done].
    apply (execute_each_invariant appended); [done|].
    intros db1 x db2 _ (nd & nv & Hd & Hv & Hnd & Hnv & Hl) [_ ->]%insert_document_inv.
    exists (nd ++ [{| doc_id := gen_random_uuid (uuid_draws db1);
                      doc_text := pdf_text x;
                      doc_media_record := media_record_id;
                      doc_page := pdf_page_number x;
                      doc_embedding := pdf_embedding x |}]), nv.
    simpl. rewrite Hd, <-app_assoc. repeat split; [done| |done..].
    apply Forall_app. split; [done|]. by apply Forall_singleton.
  - destruct (String.eqb _ _); [|done].
    destruct (video_generate_embeddings _) as [results|e]; [|done].
    apply (execute_each_invariant appended); [done|].
    intros db1 x db2 _ (nd & nv & Hd & Hv & Hnd & Hnv & Hl) [_ ->]%insert_video_inv.
    exists nd, (nv ++ [{| vid_id := gen_random_uuid (uuid_draws db1);
                          vid_screen_text := ve_screen_text x;
                          vid_transcript := ve_transcript x;
                          vid_media_record := media_record_id;
                          vid_start_time := ve_start_time x;
                          vid_embedding := ve_embedding x |}]).
    simpl. rewrite Hv, <-app_assoc. repeat split; [done..| |done].
    apply Forall_app. split; [done|]. by apply Forall_singleton.
Qed.

Lemma filter_app_all_out {A} (P : A → Prop) `{∀ x, Decision (P x)} l new :
  Forall (λ x, ¬ P x) new → filter P (l ++ new) = filter P l.
Proof.
  intros Hnew. rewrite filter_app.
  assert (filter P new = []) as ->; [|by rewrite app_nil_r].
  induction Hnew as [|x new Hx _ IH]; [done|]. by rewrite filter_cons, decide_False.
Qed.

(** Deleting a media record right after ingesting it undoes the ingestion on
    the segment tables: what is left is what deleting it before would have
    left. *)
Theorem ingest_then_delete media_record_id db :
  let ingested := (ingest_media_record_task media_record_id db).1 in
  let db1 := delete_entries_of_media_record ingested media_record_id in
  let db2 := delete_entries_of_media_record db media_record_id in
  documents db1 = documents db2
  ∧ videos db1 = videos db2
  ∧ media_record_links db1 = media_record_links db2.
Proof.
  destruct (ingest_only_appends media_record_id db)
    as (nd & nv & Hd & Hv & Hnd & Hnv & Hl).
  simpl in *. rewrite Hd, Hv, Hl. split; [|split; [|done]].
  - apply filter_app_all_out. eapply Forall_impl; [done|]. simpl. auto.
  - apply filter_app_all_out. eapply Forall_impl; [done|]. simpl. auto.
Qed.

Lemma filter_idemp {A} (P : A → Prop) `{∀ x, Decision (P x)} (l : list A) :
  filter P (filter P l) = filter P l.
Proof.
  induction l as [|x l IH]; [done|]. rewrite (filter_cons P x l).
  case_decide; [|done]. by rewrite filter_cons, decide_True, IH.
Qed.

(** Deleting the entries of a media record a second time changes nothing. *)
Theorem delete_entries_idempotent db media_record_id :
  delete_entries_of_media_record
    (delete_entries_of_media_record db media_record_id) media_record_id
  = delete_entries_of_media_record db media_record_id.
Proof.
  unfold delete_entries_of_media_record, set_videos, set_documents,
    set_media_record_links. simpl. by rewrite !filter_idemp.
Qed.
(** No operation of the service that goes through the linker, the ingestion
    or the deletion gives a pair of segments a second link: a store free of
    duplicate links stays so. *)
Theorem no_duplicate_links_preserved db content media_record_ids media_record_id :
  no_duplicate_links db →
  no_duplicate_links
    (generate_content_media_record_links_task content media_record_ids db)
  ∧ no_duplicate_links (ingest_media_record_task media_record_id db).1
  ∧ no_duplicate_links (delete_entries_of_media_record db media_record_id).
Proof.
  intros Hdb. split; [|split].
  - by apply no_duplicate_links_task.
  - by apply no_duplicate_links_ingest.
  - by apply no_duplicate_links_delete.
Qed.
End ingest_delete.


(** ** Linking *)

Section links_more.
Context `{Collaborators}.
Implicit Types db : database.

Lemma exist_create db content a b p q :
  does_link_between_media_record_segments_exist
    (create_link_between_media_record_segments db content a b) p q
  = does_link_between_media_record_segments_exist db p q
    || link_connects p q {| content_id := content; segment1_id := a; segment2_id := b |}.
Proof.
  unfold does_link_between_media_record_segments_exist. simpl.
  rewrite existsb_app. simpl. by rewrite orb_false_r.
Qed.

(** The existence check does not depend on the order of its two segments;
    after a link from [a] to [b] is created it answers yes for both orders,
    and for every other pair what it answered before. *)
Theorem link_existence_undirected db content a b p q :
  does_link_between_media_record_segments_exist db a b
  = does_link_between_media_record_segments_exist db b a
  ∧ (let db' := create_link_between_media_record_segments db content a b in
     does_link_between_media_record_segments_exist db' a b = true
     ∧ does_link_between_media_record_segments_exist db' b a = true
     ∧ (¬ (p = a ∧ q = b) → ¬ (p = b ∧ q = a) →
        does_link_between_media_record_segments_exist db' p q
        = does_link_between_media_record_segments_exist db p q)).
Proof.
  split.
  - unfold does_link_between_media_record_segments_exist.
    induction (media_record_links db) as [|l ls IH]; [done|].
    simpl. by rewrite IH, link_connects_sym.
  - cbn zeta. rewrite !exist_create. unfold link_connects. simpl.
    rewrite !N.eqb_refl. simpl. rewrite !orb_true_r.
    split; [done|]. split; [done|]. intros H1 H2.
    destruct (N.eqb_spec a p), (N.eqb_spec b q), (N.eqb_spec a q), (N.eqb_spec b p);
      simpl; rewrite ?orb_false_r; try done; subst; tauto.
Qed.

Lemma settled_link_pair content db p : settled (link_pair content db p) p.
Proof.
  unfold settled, link_pair, link_segments.
  destruct (does_link_between_media_record_segments_exist db _ _) eqn:Hex; [by left|].
  destruct (negb _) eqn:Hsim; [|by right].
  left. apply exist_links_between. rewrite links_between_create.
  unfold link_connects. simpl. rewrite !N.eqb_refl. simpl. lia.
Qed.

Lemma settled_stable content db p q : settled db p → settled (link_pair content db q) p.
Proof.
  intros [Hex|Hsim]; [left|by right].
  apply exist_links_between in Hex. apply exist_links_between.
  destruct (link_pair_links_between content db q (lq_id p.1) (lq_id p.2)); lia.
Qed.

Lemma settled_fold content db pairs :
  Forall (settled db) pairs → foldl (link_pair content) db pairs = db.
Proof.
  induction 1 as [|p pairs Hp _ IH]; [done|]. simpl.
  assert (link_pair content db p = db) as ->; [|done].
  unfold link_pair, link_segments. destruct Hp as [->| ->]; [done|].
  by destruct (does_link_between_media_record_segments_exist _ _ _).
Qed.

(** A second run of the linker over the same media records, for whatever
    content, leaves the store as the first run left it. *)
Theorem link_content_twice content content' media_record_ids db :
  generate_content_media_record_links_task content' media_record_ids
    (generate_content_media_record_links_task content media_record_ids db)
  = generate_content_media_record_links_task content media_record_ids db.
Proof.
  rewrite (task_as_fold content'), task_link_query.
  set (pairs := candidate_pairs _).
  apply settled_fold, Forall_forall. intros p Hp.
  rewrite task_as_fold. fold pairs.
  apply (foldl_establish (λ db', settled db' p)) with (x := p); [done|..].
  - intros db'. apply settled_link_pair.
  - intros db' q. apply settled_stable.
Qed.

(** A run of the linker leaves the documents and the videos alone and only
    appends links; every link it appends joins, in the order they were
    compared, two fetched segments whose texts have a Levenshtein ratio
    above 0.9. *)
Theorem link_content_links_similar content media_record_ids db :
  let db' := generate_content_media_record_links_task content media_record_ids db in
  documents db' = documents db ∧ videos db' = videos db
  ∧ ∃ new,
      media_record_links db' = media_record_links db ++ new
      ∧ Forall (λ l,
          ∃ a b,
            a ∈ link_query db media_record_ids
            ∧ b ∈ link_query db media_record_ids
            ∧ lq_id a = segment1_id l ∧ lq_id b = segment2_id l
            ∧ (9 # 10 < Levenshtein_ratio (lq_text a) (lq_text b))%Q) new.
Proof.
  intros db'. subst db'.
  destruct (task_tables content media_record_ids db) as [Hd Hv].
  split; [done|]. split; [done|]. clear Hd Hv. rewrite task_as_fold.
  apply (foldl_invariant (λ db', ∃ new,
           media_record_links db' = media_record_links db ++ new ∧ Forall _ new)).
  { exists []. by rewrite app_nil_r. }
  intros db' [a b] Hab (new & Hlinks & Hnew).
  apply candidate_pairs_sound in Hab as (Ha & Hb & Hne).
  unfold link_pair, link_segments. simpl.
  destruct (does_link_between_media_record_segments_exist _ _ _); [by exists new|].
  destruct (negb _) eqn:Hsim; [|by exists new].
  eexists (new ++ [_]). simpl. split; [by rewrite Hlinks, <-app_assoc|].
  apply Forall_app. split; [done|]. apply Forall_singleton. simpl.
  exists a, b. repeat split; [done..|].
  apply Qnot_le_lt. intros Hle%Qle_bool_iff. by rewrite Hle in Hsim.
Qed.

(** When the fetched segments all belong to one media record, the linker
    changes nothing. *)
Theorem link_content_single_media_record content media_record_ids db :
  (∀ a b, a ∈ link_query db media_record_ids → b ∈ link_query db media_record_ids →
          lq_mediaRecordId a = lq_mediaRecordId b) →
  generate_content_media_record_links_task content media_record_ids db = db.
Proof.
  intros Hone. rewrite task_as_fold.
  assert (candidate_pairs (group_by_media_record (link_query db media_record_ids)) = [])
    as ->; [|done].
  apply elem_of_nil_inv. intros [a b] Hab.
  apply candidate_pairs_sound in Hab as (Ha & Hb & Hne). by apply Hne, Hone.
Qed.
End links_more.

(** ** Searching *)

Section search_more.
Context `{Collaborators}.
Implicit Types db : database.

Lemma semantic_search_rows db query_text count blacklist whitelist :
  (0 ≤ count < 2 ^ 63)%Z →
  semantic_search db query_text count blacklist whitelist
  = Ok (search_result_of_row <$>
          take (Z.to_nat count)
            (merge_sort score_le
               (search_pool db (sentence_generate_embedding query_text)
                  blacklist whitelist))).
Proof.
  intros Hcount. unfold semantic_search. rewrite !decide_False by lia.
  rewrite (mapM_fmap_Ok _ _ normalized_search_row) by apply drop_foreign_columns_search.
  cbn [mbind result_bind].
  apply mapM_fmap_Ok. intros r. by rewrite normalized_search_row_score.
Qed.

Lemma semantic_search_Ok db query_text count blacklist whitelist results :
  semantic_search db query_text count blacklist whitelist = Ok results →
  results
  = search_result_of_row <$>
      take (Z.to_nat count)
        (merge_sort score_le
           (search_pool db (sentence_generate_embedding query_text)
              blacklist whitelist)).
Proof.
  intros Hsearch.
  destruct (decide (0 ≤ count < 2 ^ 63)%Z) as [Hcount|Hcount].
  { rewrite semantic_search_rows in Hsearch by done. congruence. }
  unfold semantic_search in Hsearch.
  destruct (decide (count < - 2 ^ 63 ∨ 2 ^ 63 ≤ count)%Z); [done|].
  rewrite decide_True in Hsearch by lia. done.
Qed.

Lemma search_filter_spec blacklist whitelist m :
  search_filter blacklist whitelist m = true ↔ (m ∈ whitelist ∧ m ∉ blacklist).
Proof.
  unfold search_filter. rewrite andb_true_iff, negb_true_iff, sql_any_elem_of.
  rewrite <-not_true_iff_false, sql_any_elem_of. done.
Qed.

Lemma search_pool_elem_of db query_embedding blacklist whitelist r :
  r ∈ search_pool db query_embedding blacklist whitelist →
  sr_mediaRecordId r ∈ whitelist ∧ (sr_mediaRecordId r ∉ blacklist)
  ∧ ((∃ d, d ∈ documents db ∧ doc_media_record d = sr_mediaRecordId r)
     ∨ (∃ v, v ∈ videos db ∧ vid_media_record v = sr_mediaRecordId r)).
Proof.
  unfold search_pool. rewrite elem_of_app, !list_elem_of_fmap.
  intros [(d & -> & Hd)|(v & -> & Hv)].
  - apply list_elem_of_filter in Hd as [Hf Hd]. apply search_filter_spec in Hf.
    simpl. split; [tauto|]. split; [tauto|]. left. by exists d.
  - apply list_elem_of_filter in Hv as [Hf Hv]. apply search_filter_spec in Hf.
    simpl. split; [tauto|]. split; [tauto|]. right. by exists v.
Qed.

Lemma normalized_search_row_media_record r :
  normalized_search_row r !! "mediaRecordId" = Some (VUuid (sr_mediaRecordId r)).
Proof. unfold normalized_search_row. by destruct r as [? [] ? ? ? ? ? ?]. Qed.

Lemma returned_rows_elem_of db query_embedding blacklist whitelist n r :
  r ∈ take n (merge_sort score_le (search_pool db query_embedding blacklist whitelist)) →
  r ∈ search_pool db query_embedding blacklist whitelist.
Proof.
  intros Hr. apply subseteq_take in Hr. by rewrite merge_sort_Permutation in Hr.
Qed.

(** With an empty whitelist and a count from 0 that a [bigint] holds, the
    search returns the empty list, whatever the store holds. *)
Theorem semantic_search_empty_whitelist db query_text count blacklist :
  (0 ≤ count < 2 ^ 63)%Z →
  semantic_search db query_text count blacklist [] = Ok [].
Proof.
  intros Hcount. rewrite semantic_search_rows by done.
  assert (search_pool db (sentence_generate_embedding query_text) blacklist [] = [])
    as ->; [|by destruct (Z.to_nat count)].
  apply elem_of_nil_inv. intros r Hr.
  apply search_pool_elem_of in Hr as [Hin _]. by apply elem_of_nil in Hin.
Qed.

(** Every segment the search returns belongs to a media record of the
    whitelist that is not on the blacklist, and is a stored document or
    video segment of that record. *)
Theorem semantic_search_respects_filters db query_text count blacklist whitelist results :
  semantic_search db query_text count blacklist whitelist = Ok results →
  Forall (λ r, ∃ m,
            mediaRecordSegment r !! "mediaRecordId" = Some (VUuid m)
            ∧ m ∈ whitelist ∧ (m ∉ blacklist)
            ∧ ((∃ d, d ∈ documents db ∧ doc_media_record d = m)
               ∨ (∃ v, v ∈ videos db ∧ vid_media_record v = m))) results.
Proof.
  intros ->%semantic_search_Ok.
  apply Forall_fmap, Forall_forall. intros r Hr.
  apply returned_rows_elem_of, search_pool_elem_of in Hr.
  exists (sr_mediaRecordId r). simpl.
  by rewrite normalized_search_row_media_record.
Qed.


Lemma normalized_search_row_shape r :
  normalized_search_row r !! "score" = Some (VFloat (sr_score r))
  ∧ (document_shaped (normalized_search_row r)
     ∨ video_shaped (normalized_search_row r)).
Proof.
  unfold normalized_search_row, document_shaped, video_shaped.
  destruct r as [? [] [] [] [] [] [] ?]; simpl; split; try done;
    try (left; repeat split; by eauto); right; repeat split; by eauto.
Qed.

(** Every result of the search repeats its score inside the segment, and the
    segment is a document segment (page and text, none of the video keys)
    or a video segment (start time, screen text and transcript, none of the
    document keys). *)
Theorem semantic_search_result_shape db query_text count blacklist whitelist results :
  semantic_search db query_text count blacklist whitelist = Ok results →
  Forall (λ r,
            mediaRecordSegment r !! "score" = Some (score r)
            ∧ (document_shaped (mediaRecordSegment r)
               ∨ video_shaped (mediaRecordSegment r))) results.
Proof.
  intros ->%semantic_search_Ok.
  apply Forall_fmap, Forall_forall. intros r _. apply normalized_search_row_shape.
Qed.

(** After the entries of a media record are deleted, no search returns a
    segment of it. *)
Theorem search_after_delete db media_record_id query_text count blacklist whitelist results :
  semantic_search (delete_entries_of_media_record db media_record_id)
    query_text count blacklist whitelist = Ok results →
  Forall (λ r, mediaRecordSegment r !! "mediaRecordId" ≠ Some (VUuid media_record_id))
    results.
Proof.
  intros ->%semantic_search_Ok.
  apply Forall_fmap, Forall_forall. intros r Hr.
  apply returned_rows_elem_of, search_pool_elem_of in Hr as (_ & _ & Hseg).
  simpl. rewrite normalized_search_row_media_record. intros [= Heq].
  destruct Hseg as [(d & Hd & Hm)|(v & Hv & Hm)].
  - apply list_elem_of_filter in Hd as [Hne _]. congruence.
  - apply list_elem_of_filter in Hv as [Hne _]. congruence.
Qed.
(** Linking does not change what a search returns. *)
Theorem link_then_search content media_record_ids db query_text count blacklist whitelist :
  semantic_search
    (generate_content_media_record_links_task content media_record_ids db)
    query_text count blacklist whitelist
  = semantic_search db query_text count blacklist whitelist.
Proof.
  destruct (task_tables content media_record_ids db) as [Hd Hv].
  unfold semantic_search, search_pool. by rewrite Hd, Hv.
Qed.
End search_more.


(** ** Reading links *)

Section get_links_more.
Context `{Collaborators}.
Implicit Types db : database.

(** When a link of the content names a segment id that is in neither segment
    table, reading the links of the content raises StopIteration: no link is
    returned, not even the intact ones. *)
Theorem get_links_dangling_link_raises db content :
  Exists (λ l, content_id l = content
               ∧ (segment1_id l ∉ segment_ids db ∨ segment2_id l ∉ segment_ids db))
         (media_record_links db) →
  get_media_record_links_for_content db content = Raise StopIteration.
Proof.
  intros (l & Hl & Hc & Hmissing)%Exists_exists.
  by apply get_links_missing_segment with (l := l).
Qed.

Lemma segment_ids_delete db media_record_id id :
  id ∈ segment_ids (delete_entries_of_media_record db media_record_id) →
  ∃ m, m ≠ media_record_id ∧ segment_of_media_record db id m.
Proof.
  unfold segment_ids. simpl. rewrite elem_of_app, !list_elem_of_fmap.
  intros [(d & -> & Hd)|(v & -> & Hv)].
  - apply list_elem_of_filter in Hd as [Hne Hd].
    exists (doc_media_record d). split; [done|]. left. by exists d.
  - apply list_elem_of_filter in Hv as [Hne Hv].
    exists (vid_media_record v). split; [done|]. right. by exists v.
Qed.

(** Deleting a media record one of whose segments is linked breaks the
    content of that link: the link survives the deletion (its segment ids
    differ from the media record id), so reading the links of the content
    raises StopIteration from then on. *)
Theorem delete_then_get_links db media_record_id content l :
  NoDup (segment_ids db) →
  l ∈ media_record_links db → content_id l = content →
  segment1_id l ≠ media_record_id → segment2_id l ≠ media_record_id →
  segment_of_media_record db (segment1_id l) media_record_id
  ∨ segment_of_media_record db (segment2_id l) media_record_id →
  get_media_record_links_for_content
    (delete_entries_of_media_record db media_record_id) content
  = Raise StopIteration.
Proof.
  intros Hids Hl Hc H1 H2 Hseg.
  apply get_links_missing_segment with (l := l); [|done|].
  - apply delete_entries_links. done.
  - destruct Hseg as [Hseg|Hseg]; [left|right]; intros Hin;
      apply segment_ids_delete in Hin as (m & Hne & Hm);
      apply Hne; by eapply segment_of_media_record_unique.
Qed.

Lemma mapM_Ok_inv {A B} (f : A → result B) l k :
  mapM f l = Ok k → Forall2 (λ x y, f x = Ok y) l k.
Proof.
  revert k. induction l as [|x l IH]; intros k; simpl.
  { intros [= <-]. constructor. }
  destruct (f x) as [y|e] eqn:Hx; [|done]. cbn [mbind result_bind].
  destruct (mapM f l) as [k'|e] eqn:Hl; [|done]. cbn [mbind result_bind].
  intros [= <-]. constructor; [done|]. by apply IH.
Qed.

Lemma next_with_id_elem_of xs sid x : next_with_id xs sid = Ok x → x ∈ xs.
Proof.
  induction xs as [|y xs IH]; [done|]. simpl.
  destruct (getitem y "id") as [i|e]; [|done]. cbn [mbind result_bind].
  case_decide; [intros [= ->]; by left|]. intros Hx. right. by apply IH.
Qed.

Lemma normalized_segment_shape r :
  document_shaped (normalized_segment r) ∨ video_shaped (normalized_segment r).
Proof.
  unfold normalized_segment, document_shaped, video_shaped.
  destruct r as [? ? [] [] [] [] [] []]; simpl;
    try (left; repeat split; by eauto); right; repeat split; by eauto.
Qed.

(** Both segments of every returned link are document segments (page and
    text, none of the video keys) or video segments (start time, screen text
    and transcript, none of the document keys). *)
Theorem get_links_result_shape db content pairs :
  get_media_record_links_for_content db content = Ok pairs →
  Forall (λ p,
            (document_shaped (segment1 p) ∨ video_shaped (segment1 p))
            ∧ (document_shaped (segment2 p) ∨ video_shaped (segment2 p))) pairs.
Proof.
  unfold get_media_record_links_for_content, segments_query.
  rewrite (mapM_fmap_Ok _ _ normalized_segment) by apply drop_foreign_columns_segment.
  cbn [mbind result_bind]. intros Hpairs%mapM_Ok_inv.
  induction Hpairs as [|l p ls pairs Hp _ IH]; constructor; [|done].
  destruct (next_with_id _ (segment1_id l)) as [s1|e] eqn:H1; [|done].
  destruct (next_with_id _ (segment2_id l)) as [s2|e] eqn:H2; [|done].
  injection Hp as <-. simpl.
  apply next_with_id_elem_of, list_elem_of_fmap in H1 as (r1 & -> & _).
  apply next_with_id_elem_of, list_elem_of_fmap in H2 as (r2 & -> & _).
  split; apply normalized_segment_shape.
Qed.
End get_links_more.

(** ** The worker, once more *)

Section worker_more.
Context `{Collaborators}.
Implicit Types s : service.

Lemma drain_queue n : ∀ s,
  queue_ok s →
  _background_task_thread s = Running →
  _keep_background_task_thread_alive s = true →
  (∀ x db, x ∈ _background_task_queue s → (run_task (task x) db).2 = Ok ()) →
  length (_background_task_queue s) = n →
  let s' := run s (replicate n Worker) in
  _background_task_queue s' = []
  ∧ _background_task_thread s' = Running
  ∧ ∃ new,
      executed s' = executed s ++ new
      ∧ new.*1 ≡ₚ _background_task_queue s
      ∧ Forall (λ e, e.2 = Ok ()) new.
Proof.
  induction n as [|n IH]; intros s Hq Hthread Halive Hok Hlen.
  { simpl. split; [by apply nil_length_inv|]. split; [done|].
    exists []. rewrite app_nil_r. apply nil_length_inv in Hlen. by rewrite Hlen. }
  cbn [replicate run foldl step].
  destruct (get_spec (_background_task_queue s) Hq) as (x & q & Hget & Hq' & Hperm & _).
  { intros Hnil. by rewrite Hnil in Hlen. }
  assert (_background_task_runner s
          = {| _db_conn := (run_task (task x) (_db_conn s)).1;
               _background_task_queue := q;
               _keep_background_task_thread_alive := true;
               _background_task_thread := Running;
               executed := executed s ++ [(x, Ok ())] |}) as ->.
  { unfold _background_task_runner. rewrite Hthread, Halive, Hget.
    specialize (Hok x (_db_conn s)).
    destruct (run_task (task x) (_db_conn s)) as [db o]. simpl in *.
    rewrite Hok; [done|]. rewrite Hperm. by left. }
  set (s1 := {| _db_conn := (run_task (task x) (_db_conn s)).1;
                _background_task_queue := q |}).
  destruct (IH s1) as (Hempty & Hrun & new & Hexec & Hnew & Hall); [done..| | |].
  { simpl. intros y db Hy. apply Hok. rewrite Hperm. by right. }
  { simpl. rewrite Hperm in Hlen. simpl in Hlen. lia. }
  unfold run in *. split; [done|]. split; [done|].
  exists ((x, Ok ()) :: new). simpl in *. split; [by rewrite Hexec, <-app_assoc|].
  split; [by rewrite Hnew, Hperm|]. by constructor.
Qed.

(** A running worker whose queued tasks all return empties the queue in as
    many passes as it holds items: every queued item is executed once, all
    return, and the thread is still running. *)
Theorem worker_drains_queue db events :
  let s := run (init db) events in
  _background_task_thread s = Running →
  _keep_background_task_thread_alive s = true →
  (∀ x db', x ∈ _background_task_queue s → (run_task (task x) db').2 = Ok ()) →
  let s' := run s (replicate (length (_background_task_queue s)) Worker) in
  _background_task_queue s' = []
  ∧ _background_task_thread s' = Running
  ∧ ∃ new,
      executed s' = executed s ++ new
      ∧ new.*1 ≡ₚ _background_task_queue s
      ∧ Forall (λ e, e.2 = Ok ()) new.
Proof.
  intros s Hthread Halive Hok.
  apply drain_queue; [|done..]. apply run_queue_ok, init_queue_ok.
Qed.

Lemma cleared_flag_step s e :
  _keep_background_task_thread_alive s = false →
  _keep_background_task_thread_alive (step s e) = false
  ∧ executed (step s e) = executed s
  ∧ _db_conn (step s e) = _db_conn s.
Proof.
  intros Hflag. destruct e as [x|]; simpl.
  - unfold put_task. by destruct (PriorityQueue.put _ _).
  - unfold _background_task_runner.
    destruct (_background_task_thread s); [|done..]. by rewrite Hflag.
Qed.

(** Once the keep-alive flag is cleared, the next pass of a running worker
    returns without taking an item, and whatever is put or attempted
    afterwards, no task is executed and the store does not change. *)
Theorem cleared_flag_stops_worker s events :
  _keep_background_task_thread_alive s = false →
  (_background_task_thread s = Running →
   _background_task_thread (_background_task_runner s) = Returned
   ∧ _background_task_queue (_background_task_runner s) = _background_task_queue s)
  ∧ executed (run s events) = executed s
  ∧ _db_conn (run s events) = _db_conn s.
Proof.
  intros Hflag. split.
  - intros Hthread. unfold _background_task_runner. by rewrite Hthread, Hflag.
  - revert s Hflag. induction events as [|e events IH]; intros s Hflag; [done|].
    destruct (cleared_flag_step s e Hflag) as (Hflag' & Hexec & Hdb).
    simpl. destruct (IH _ Hflag') as [-> ->]. done.
Qed.

(** Enqueueing an ingestion on an idle running service and letting the
    worker make one pass leaves the store the ingestion coroutine leaves,
    logs the item with its outcome, empties the queue, and keeps the thread
    running exactly when the coroutine returned. *)
Theorem enqueue_ingest_then_worker s media_record_id :
  _background_task_queue s = [] →
  _background_task_thread s = Running →
  _keep_background_task_thread_alive s = true →
  let item := {| task := IngestMediaRecord media_record_id; priority := 0 |} in
  let outcome := ingest_media_record_task media_record_id (_db_conn s) in
  let s' := _background_task_runner (enqueue_ingest_media_record_task s media_record_id) in
  _db_conn s' = outcome.1
  ∧ executed s' = executed s ++ [(item, outcome.2)]
  ∧ _background_task_queue s' = []
  ∧ _background_task_thread s'
    = match outcome.2 with Ok _ => Running | Raise e => Died e end.
Proof.
  intros Hq Hthread Halive item outcome s'. subst s' outcome item.
  unfold enqueue_ingest_media_record_task, put_task. rewrite Hq.
  unfold _background_task_runner. simpl. rewrite Hthread, Halive.
  by destruct (ingest_media_record_task media_record_id (_db_conn s)).
Qed.

(** Enqueueing an ingestion adds one item of priority 0 to the queue and does
    nothing else: the store, the log and the thread are as before. *)
Theorem enqueue_ingest_only_queues db events media_record_id :
  let s := run (init db) events in
  let s' := enqueue_ingest_media_record_task s media_record_id in
  _background_task_queue s'
  ≡ₚ {| task := IngestMediaRecord media_record_id; priority := 0 |}
     :: _background_task_queue s
  ∧ _db_conn s' = _db_conn s
  ∧ executed s' = executed s
  ∧ _background_task_thread s' = _background_task_thread s.
Proof.
  intros s s'. subst s'. unfold enqueue_ingest_media_record_task.
  destruct (put_task_spec s {| task := IngestMediaRecord media_record_id; priority := 0 |})
    as (q & -> & _ & Hperm).
  { apply run_queue_ok, init_queue_ok. }
  done.
Qed.
Lemma keep_alive_step s e :
  _keep_background_task_thread_alive s = true →
  _background_task_thread s ≠ Returned →
  _keep_background_task_thread_alive (step s e) = true
  ∧ _background_task_thread (step s e) ≠ Returned.
Proof.
  intros Hflag Hthread. destruct e as [x|]; simpl.
  - unfold put_task. by destruct (PriorityQueue.put _ _).
  - unfold _background_task_runner.
    destruct (_background_task_thread s) eqn:Hs; [|by rewrite Hs..].
    rewrite Hflag.
    destruct (PriorityQueue.get _) as [[x q]|[]]; simpl; rewrite ?Hs; try done.
    destruct (run_task _ _) as [db []]; done.
Qed.

(** Nothing that is put and no pass of the worker clears the keep-alive
    event: in every state reached from the constructor it is set, and the
    thread has not returned; it runs, or it died of an exception. *)
Theorem worker_never_returns db events :
  let s := run (init db) events in
  _keep_background_task_thread_alive s = true
  ∧ _background_task_thread s ≠ Returned
  ∧ (_background_task_thread s = Running ∨ ∃ e, _background_task_thread s = Died e).
Proof.
  intros s.
  assert (_keep_background_task_thread_alive s = true
          ∧ _background_task_thread s ≠ Returned) as [Hflag Hthread].
  { subst s. unfold run. apply foldl_invariant; [done|].
    intros s e _ [Hflag Hthread]. by apply keep_alive_step. }
  split; [done|]. split; [done|].
  destruct (_background_task_thread s); by eauto.
Qed.
End worker_more.

(** ** [PdfProcessor] *)

Section PdfProcessor_correct.
Import PdfProcessor.
Context {image : Type} (strip : string → string).
Implicit Types contents : list (option string).
Implicit Types page_images : list image.

Lemma process_pages_spec page_images contents : ∀ all page_index pages,
  length page_images ≥ page_index + length contents →
  (∀ i, all !! (page_index + i) = contents !! i) →
  Forall (page_of strip page_images all) pages →
  Forall (λ p, page_number p < page_index) pages →
  StronglySorted lt (page_number <$> pages) →
  ∃ pages',
    process_pages strip page_images page_index contents pages = Ok pages'
    ∧ Forall (page_of strip page_images all) pages'
    ∧ StronglySorted lt (page_number <$> pages')
    ∧ (∀ i content, contents !! i = Some (Some content) → strip content ≠ "" →
         page_index + i ∈ page_number <$> pages')
    ∧ (∀ p, p ∈ pages → p ∈ pages').
Proof.
  induction contents as [|content contents IH];
    intros all page_index pages Hlen Hall Hpages Hlt Hsorted.
  { exists pages. repeat split; done. }
  simpl in Hlen. cbn [process_pages].
  assert (∀ i, all !! (S page_index + i) = contents !! i) as Hall'.
  { intros i. specialize (Hall (S i)). by rewrite <-Nat.add_succ_comm in Hall. }
  assert (∀ pages1,
    Forall (page_of strip page_images all) pages1 →
    Forall (λ p, page_number p < S page_index) pages1 →
    StronglySorted lt (page_number <$> pages1) →
    (∀ p, p ∈ pages → p ∈ pages1) →
    (∀ c, content = Some c → strip c ≠ "" → page_index ∈ page_number <$> pages1) →
    ∃ pages',
      process_pages strip page_images (S page_index) contents pages1 = Ok pages'
      ∧ Forall (page_of strip page_images all) pages'
      ∧ StronglySorted lt (page_number <$> pages')
      ∧ (∀ i c, (content :: contents) !! i = Some (Some c) → strip c ≠ "" →
           page_index + i ∈ page_number <$> pages')
      ∧ (∀ p, p ∈ pages → p ∈ pages')) as Hrest.
  { intros pages1 H1 H2 H3 H4 H5.
    destruct (IH all (S page_index) pages1) as (pages' & -> & Hp & Hs & Hc & Hk);
      [lia|done..|].
    exists pages'. repeat split; [done..| |by auto].
    intros [|i] c Hi Hc'.
    - simpl in Hi. injection Hi as ->. rewrite Nat.add_0_r.
      pose proof (H5 c eq_refl Hc') as (p & Hp1 & Hp')%list_elem_of_fmap.
      apply list_elem_of_fmap. exists p. split; [done|]. by apply Hk.
    - rewrite Nat.add_succ_r. apply (Hc i c); done. }
  assert (Forall (λ p, page_number p < S page_index) pages) as Hlt'.
  { eapply Forall_impl; [done|]. simpl. lia. }
  unfold process_page. destruct content as [content|]; cbn [mbind result_bind].
  - case_decide as Hempty; cbn [mbind result_bind].
    + apply Hrest; try done. intros c [= <-]. done.
    + destruct (lookup_lt_is_Some_2 page_images page_index) as [page_image Himg]; [lia|].
      unfold getitem_image. rewrite Himg. cbn [mbind result_bind].
      apply Hrest.
      * apply Forall_app. split; [done|]. apply Forall_singleton.
        repeat split; [done..|]. simpl. exists content. split; [|done].
        specialize (Hall 0). by rewrite Nat.add_0_r in Hall.
      * apply Forall_app. split; [done|]. apply Forall_singleton. simpl. lia.
      * rewrite fmap_app. apply StronglySorted_app_2; [|done|repeat constructor].
        intros x y (p & -> & Hp)%list_elem_of_fmap ->%list_elem_of_singleton.
        rewrite Forall_forall in Hlt. by apply Hlt.
      * intros p Hp. apply elem_of_app. by left.
      * intros c _ _. rewrite fmap_app. apply elem_of_app. right. by left.
  - apply Hrest; try done.
Qed.

(** When there is a thumbnail for every page, [process_from_io] returns; each
    page of the result carries the stripped, non-empty text and the
    thumbnail of the page of its number, the pages are in increasing page
    order without repetition, and every page with non-blank content is
    among them. *)
Theorem process_from_io_pages page_images contents :
  length contents ≤ length page_images →
  ∃ pages,
    process_from_io strip page_images contents = Ok {| PdfProcessor.pages := pages |}
    ∧ Forall (page_of strip page_images contents) pages
    ∧ StronglySorted lt (page_number <$> pages)
    ∧ ∀ i content, contents !! i = Some (Some content) → strip content ≠ "" →
        i ∈ page_number <$> pages.
Proof.
  intros Hlen. unfold process_from_io.
  destruct (process_pages_spec page_images contents contents 0 [])
    as (pages & -> & Hp & Hs & Hc & _); [simpl; lia|done|constructor..|].
  exists pages. repeat split; done.
Qed.

Lemma process_page_outcome page_images pages page_index content :
  process_page strip page_images pages page_index content = Raise IndexError
  ∨ ∃ pages', process_page strip page_images pages page_index content = Ok pages'.
Proof.
  unfold process_page. destruct content as [c|]; [|by eauto].
  case_decide; [by eauto|]. unfold getitem_image.
  destruct (page_images !! page_index); by eauto.
Qed.

(** A page with non-blank content and no thumbnail makes [process_from_io]
    raise IndexError. *)
Theorem process_from_io_missing_thumbnail page_images contents i content :
  contents !! i = Some (Some content) → strip content ≠ "" →
  length page_images ≤ i →
  process_from_io strip page_images contents = Raise IndexError.
Proof.
  intros Hi Hc Hlen. unfold process_from_io.
  assert (∀ contents page_index pages j,
            contents !! j = Some (Some content) →
            length page_images ≤ page_index + j →
            process_pages strip page_images page_index contents pages = Raise IndexError)
    as Hraise.
  { clear Hi Hlen contents. induction contents as [|c contents IH];
      intros page_index pages j Hj Hlen; [done|].
    cbn [process_pages].
    destruct (process_page_outcome page_images pages page_index c) as [->|[pages1 Hpage]];
      [done|].
    rewrite Hpage. cbn [mbind result_bind]. destruct j as [|j].
    - simpl in Hj. injection Hj as ->. unfold process_page in Hpage.
      rewrite decide_False in Hpage by done. unfold getitem_image in Hpage.
      by rewrite lookup_ge_None_2 in Hpage by lia.
    - apply (IH _ _ j); [done|lia]. }
  by rewrite (Hraise contents 0 [] i).
Qed.
End PdfProcessor_correct.

(** ** [TranscriptGenerator] *)

Section TranscriptGenerator_correct.
Import TranscriptGenerator.
Context {float caption : Type} (timedelta_seconds : float → timedelta.t)
        (Caption : string → string → string → result caption).

Lemma nonzero_microseconds_spec t :
  timedelta.microseconds (nonzero_microseconds t) ≠ 0%Z
  ∧ (t ≤ nonzero_microseconds t ≤ t + 1)%Z.
Proof.
  unfold nonzero_microseconds, timedelta.microseconds, timedelta.microsecond.
  case_decide; lia.
Qed.

Lemma digit_is_digit n : is_digit (timedelta.digit n).
Proof.
  unfold is_digit, timedelta.digit.
  pose proof (Z.mod_pos_bound n 10 ltac:(lia)).
  rewrite nat_ascii_embedding by lia. lia.
Qed.

Lemma str_has_fraction t :
  timedelta.microseconds t ≠ 0%Z → has_fraction (timedelta.str t).
Proof.
  intros Hus. unfold timedelta.str. rewrite decide_False by done.
  eexists _, (timedelta.six_digits _). split; [done|]. split; [done|].
  unfold timedelta.six_digits. simpl.
  repeat (apply Forall_cons; split; [apply digit_is_digit|]). apply Forall_nil_2.
Qed.

Lemma append_captions_spec (segments : list segment) : ∀ acc,
  append_captions timedelta_seconds Caption acc segments
  = new ← mapM (new_caption timedelta_seconds Caption) segments; Ok (acc ++ new).
Proof.
  induction segments as [|s segments IH]; intros acc; simpl.
  { by rewrite app_nil_r. }
  unfold append_caption.
  destruct (new_caption timedelta_seconds Caption s) as [c|e]; [|done].
  cbn [mbind result_bind]. rewrite IH.
  destruct (mapM _ segments) as [new|e]; [|done].
  cbn [mbind result_bind mret result_ret]. by rewrite <-app_assoc.
Qed.

(** The loop makes one call of [Caption] for each segment, in their order,
    and ends at the first call that raises; the start and the end passed to
    every call end in a dot and the six digits of the fraction of a
    second. *)
Theorem caption_timestamps_carry_fraction (segments : list segment) :
  captions timedelta_seconds Caption segments
  = mapM (new_caption timedelta_seconds Caption) segments
  ∧ Forall (λ s, let '(segment_start, segment_end, text) :=
                   caption_arguments timedelta_seconds s in
                 new_caption timedelta_seconds Caption s
                 = Caption segment_start segment_end text
                 ∧ has_fraction segment_start ∧ has_fraction segment_end)
      segments.
Proof.
  split.
  - unfold captions. rewrite append_captions_spec.
    by destruct (mapM _ segments).
  - apply Forall_forall. intros s _.
    unfold new_caption, caption_arguments, segment_times. simpl.
    split; [done|]. split; apply str_has_fraction, nonzero_microseconds_spec.
Qed.

(** The times given to a caption are those of the segment or one microsecond
    later, and a segment that ends no earlier than it starts gives a caption
    that does so too. *)
Theorem segment_times_spec (s : segment) :
  let t1 := timedelta_seconds (start s) in
  let t2 := timedelta_seconds (end_ s) in
  let '(t1', t2') := segment_times timedelta_seconds s in
  (t1 ≤ t1' ≤ t1 + 1)%Z ∧ (t2 ≤ t2' ≤ t2 + 1)%Z
  ∧ ((t1 ≤ t2)%Z → (t1' ≤ t2')%Z).
Proof.
  simpl. unfold nonzero_microseconds, timedelta.microseconds, timedelta.microsecond.
  repeat case_decide; lia.
Qed.
End TranscriptGenerator_correct.

(** ** Examples for the properties above *)

(** Document 10 is ingested into the empty store. *)
Lemma ingest_document_rows_witness :
  let media_record :=
    {| internalDownloadUrl := "http://media/download"; type := "DOCUMENT" |} in
  let results :=
    [{| pdf_text := "Gradient descent"; pdf_page_number := 1%Z;
        pdf_embedding := example.axis 0 |}] in
  let outcome := @ingest_media_record_task example.collaborators 10%N example.empty_db in
  (@get_media_record_type_and_download_url example.collaborators 10%N = Ok media_record
   ∧ (type media_record = "PRESENTATION" ∨ type media_record = "DOCUMENT")
   ∧ @pdf_generate_embedding example.collaborators (internalDownloadUrl media_record)
     = Ok results
   ∧ Forall documents_accepts results)
  ∧ outcome.2 = Ok ()
  ∧ videos outcome.1 = videos example.empty_db
  ∧ media_record_links outcome.1 = media_record_links example.empty_db
  ∧ ∃ new,
      documents outcome.1 = documents example.empty_db ++ new
      ∧ Forall2 (λ e d, doc_text d = pdf_text e
                        ∧ doc_media_record d = 10%N
                        ∧ doc_page d = pdf_page_number e
                        ∧ doc_embedding d = pdf_embedding e) results new.
Proof.
  intros media_record results outcome.
  assert (Forall documents_accepts results) as Hfit.
  { apply Forall_singleton. split; [reflexivity|]. split; [simpl; lia|reflexivity]. }
  split; [by auto|].
  exact (@ingest_document_rows example.collaborators 10%N example.empty_db
           media_record results eq_refl (or_intror eq_refl) eq_refl Hfit).
Defined.

(** Document 10 has three pages and the embedding of the second has 2
    dimensions: the first page is written and stays, the third is not
    written. *)
Lemma ingest_document_refused_row_witness :
  let media_record :=
    {| internalDownloadUrl := "http://media/download"; type := "DOCUMENT" |} in
  let accepted := [lecture.page 1 (example.axis 0)] in
  let refused := lecture.page 2 [1%Q; 0%Q] in
  let rest := [lecture.page 3 (example.axis 2)] in
  let outcome :=
    @ingest_media_record_task lecture.short_embedding 10%N example.empty_db in
  (@get_media_record_type_and_download_url lecture.short_embedding 10%N
   = Ok media_record
   ∧ (type media_record = "PRESENTATION" ∨ type media_record = "DOCUMENT")
   ∧ @pdf_generate_embedding lecture.short_embedding (internalDownloadUrl media_record)
     = Ok (accepted ++ refused :: rest)
   ∧ Forall documents_accepts accepted
   ∧ ¬ documents_accepts refused)
  ∧ (∃ msg, outcome.2 = Raise (DatabaseError msg))
  ∧ videos outcome.1 = videos example.empty_db
  ∧ media_record_links outcome.1 = media_record_links example.empty_db
  ∧ ∃ new,
      documents outcome.1 = documents example.empty_db ++ new
      ∧ Forall2 (λ e d, doc_text d = pdf_text e
                        ∧ doc_media_record d = 10%N
                        ∧ doc_page d = pdf_page_number e
                        ∧ doc_embedding d = pdf_embedding e) accepted new.
Proof.
  intros media_record accepted refused rest outcome.
  assert (Forall documents_accepts accepted) as Hfit.
  { apply Forall_singleton. split; [reflexivity|]. split; [simpl; lia|reflexivity]. }
  assert (¬ documents_accepts refused) as Hrefused.
  { intros (_ & _ & Hdim). discriminate. }
  split; [by auto|].
  exact (@ingest_document_refused_row lecture.short_embedding 10%N example.empty_db
           media_record accepted refused rest eq_refl (or_intror eq_refl) eq_refl
           Hfit Hrefused).
Defined.

(** Video 20 is ingested into the empty store. *)
Lemma ingest_video_rows_witness :
  let media_record :=
    {| internalDownloadUrl := "http://media/download"; type := "VIDEO" |} in
  let results :=
    [{| ve_screen_text := "Gradient descent";
        ve_transcript := "today we look at gradient descent";
        ve_start_time := 0%Z; ve_embedding := example.axis 1 |}] in
  let outcome := @ingest_media_record_task example.collaborators 20%N example.empty_db in
  (@get_media_record_type_and_download_url example.collaborators 20%N = Ok media_record
   ∧ type media_record = "VIDEO"
   ∧ @video_generate_embeddings example.collaborators (internalDownloadUrl media_record)
     = Ok results
   ∧ Forall videos_accepts results)
  ∧ outcome.2 = Ok ()
  ∧ documents outcome.1 = documents example.empty_db
  ∧ media_record_links outcome.1 = media_record_links example.empty_db
  ∧ ∃ new,
      videos outcome.1 = videos example.empty_db ++ new
      ∧ Forall2 (λ e v, vid_screen_text v = ve_screen_text e
                        ∧ vid_transcript v = ve_transcript e
                        ∧ vid_media_record v = 20%N
                        ∧ vid_start_time v = ve_start_time e
                        ∧ vid_embedding v = ve_embedding e) results new.
Proof.
  intros media_record results outcome.
  assert (Forall videos_accepts results) as Hfit.
  { apply Forall_singleton. split; [reflexivity|]. split; [reflexivity|].
    split; [simpl; lia|reflexivity]. }
  split; [by auto|].
  exact (@ingest_video_rows example.collaborators 20%N example.empty_db
           media_record results eq_refl eq_refl eq_refl Hfit).
Defined.

(** The linked store has one link, so no pair of segments has two. *)
Lemma no_duplicate_links_preserved_witness :
  no_duplicate_links example.linked_db
  ∧ no_duplicate_links
      (@generate_content_media_record_links_task example.collaborators
         100%N [10%N; 20%N] example.linked_db)
  ∧ no_duplicate_links
      (@ingest_media_record_task example.collaborators 10%N example.linked_db).1
  ∧ no_duplicate_links (delete_entries_of_media_record example.linked_db 10%N).
Proof.
  assert (no_duplicate_links example.linked_db) as Hdb.
  { intros id1 id2. unfold links_between. simpl.
    rewrite filter_cons, filter_nil. case_decide; simpl; lia. }
  split; [done|].
  exact (@no_duplicate_links_preserved example.collaborators example.linked_db
           100%N [10%N; 20%N] 10%N Hdb).
Defined.

(** Only document 10 is fetched: nothing is linked. *)
Lemma link_content_single_media_record_witness :
  (∀ a b, a ∈ link_query example.ingested_db [10%N] →
          b ∈ link_query example.ingested_db [10%N] →
          lq_mediaRecordId a = lq_mediaRecordId b)
  ∧ @generate_content_media_record_links_task example.collaborators
      100%N [10%N] example.ingested_db
    = example.ingested_db.
Proof.
  assert (∀ a b, a ∈ link_query example.ingested_db [10%N] →
                 b ∈ link_query example.ingested_db [10%N] →
                 lq_mediaRecordId a = lq_mediaRecordId b) as Hone.
  { intros a b Ha%list_elem_of_singleton Hb%list_elem_of_singleton. by subst. }
  split; [done|].
  exact (@link_content_single_media_record example.collaborators
           100%N [10%N] example.ingested_db Hone).
Defined.

(** A search for three segments with nothing whitelisted. *)
Lemma semantic_search_empty_whitelist_witness :
  (0 ≤ 3 < 2 ^ 63)%Z
  ∧ @semantic_search example.collaborators example.ingested_db "gradient" 3 [20%N] []
    = Ok [].
Proof.
  assert (0 ≤ 3 < 2 ^ 63)%Z as Hcount by lia.
  split; [done|].
  exact (@semantic_search_empty_whitelist example.collaborators example.ingested_db
           "gradient" 3 [20%N] Hcount).
Defined.

(** Video 20 is blacklisted: the slide of document 10 is all that is
    returned. *)
Lemma semantic_search_respects_filters_witness :
  let results :=
    [search_result_of_row
       (@search_document_result example.collaborators (example.axis 0) example.slide)] in
  @semantic_search example.collaborators example.ingested_db
    "gradient" 5 [20%N] [10%N; 20%N] = Ok results
  ∧ Forall (λ r, ∃ m,
              mediaRecordSegment r !! "mediaRecordId" = Some (VUuid m)
              ∧ m ∈ [10%N; 20%N] ∧ (m ∉ [20%N])
              ∧ ((∃ d, d ∈ documents example.ingested_db ∧ doc_media_record d = m)
                 ∨ (∃ v, v ∈ videos example.ingested_db ∧ vid_media_record v = m)))
      results.
Proof.
  intros results.
  assert (@semantic_search example.collaborators example.ingested_db
            "gradient" 5 [20%N] [10%N; 20%N] = Ok results) as Hsearch by reflexivity.
  split; [done|].
  exact (@semantic_search_respects_filters example.collaborators example.ingested_db
           "gradient" 5 [20%N] [10%N; 20%N] results Hsearch).
Defined.


(** Both segments are returned, the slide first. *)
Lemma semantic_search_result_shape_witness :
  let results :=
    [search_result_of_row
       (@search_document_result example.collaborators (example.axis 0) example.slide);
     search_result_of_row
       (@search_video_result example.collaborators (example.axis 0) example.frame)] in
  @semantic_search example.collaborators example.ingested_db
    "gradient" 5 [] [10%N; 20%N] = Ok results
  ∧ Forall (λ r,
              mediaRecordSegment r !! "score" = Some (score r)
              ∧ (document_shaped (mediaRecordSegment r)
                 ∨ video_shaped (mediaRecordSegment r))) results.
Proof.
  intros results.
  assert (@semantic_search example.collaborators example.ingested_db
            "gradient" 5 [] [10%N; 20%N] = Ok results) as Hsearch by reflexivity.
  split; [done|].
  exact (@semantic_search_result_shape example.collaborators example.ingested_db
           "gradient" 5 [] [10%N; 20%N] results Hsearch).
Defined.

(** Document 10 is deleted: the search returns the frame of video 20 only. *)
Lemma search_after_delete_witness :
  let results :=
    [search_result_of_row
       (@search_video_result example.collaborators (example.axis 0) example.frame)] in
  @semantic_search example.collaborators
    (delete_entries_of_media_record example.ingested_db 10%N)
    "gradient" 5 [] [10%N; 20%N] = Ok results
  ∧ Forall (λ r, mediaRecordSegment r !! "mediaRecordId" ≠ Some (VUuid 10%N)) results.
Proof.
  intros results.
  assert (@semantic_search example.collaborators
            (delete_entries_of_media_record example.ingested_db 10%N)
            "gradient" 5 [] [10%N; 20%N] = Ok results) as Hsearch by reflexivity.
  split; [done|].
  exact (@search_after_delete example.collaborators example.ingested_db 10%N
           "gradient" 5 [] [10%N; 20%N] results Hsearch).
Defined.

(** Video 20 is deleted from the linked store: the link of content 100 still
    names its frame as second segment. *)
Lemma get_links_dangling_link_raises_witness :
  let db := delete_entries_of_media_record example.linked_db 20%N in
  Exists (λ l, content_id l = 100%N
               ∧ (segment1_id l ∉ segment_ids db ∨ segment2_id l ∉ segment_ids db))
         (media_record_links db)
  ∧ get_media_record_links_for_content db 100%N = Raise StopIteration.
Proof.
  intros db.
  assert (Exists (λ l, content_id l = 100%N
               ∧ (segment1_id l ∉ segment_ids db ∨ segment2_id l ∉ segment_ids db))
            (media_record_links db)) as Hdangling.
  { apply Exists_cons_hd. split; [done|]. right.
    intros Hin%list_elem_of_singleton. discriminate. }
  split; [done|].
  exact (get_links_dangling_link_raises db 100%N Hdangling).
Defined.

(** The link of content 100 joins frame 2 and slide 1; document 10 is
    deleted. *)
Lemma delete_then_get_links_witness :
  let l := {| content_id := 100%N; segment1_id := 2%N; segment2_id := 1%N |} in
  (NoDup (segment_ids lecture.linked_db)
   ∧ l ∈ media_record_links lecture.linked_db
   ∧ content_id l = 100%N
   ∧ segment1_id l ≠ 10%N ∧ segment2_id l ≠ 10%N
   ∧ (segment_of_media_record lecture.linked_db (segment1_id l) 10%N
      ∨ segment_of_media_record lecture.linked_db (segment2_id l) 10%N))
  ∧ get_media_record_links_for_content
      (delete_entries_of_media_record lecture.linked_db 10%N) 100%N
    = Raise StopIteration.
Proof.
  intros l.
  assert (NoDup (segment_ids lecture.linked_db)) as Hids.
  { apply (bool_decide_unpack _). reflexivity. }
  assert (l ∈ media_record_links lecture.linked_db) as Hl by (by left).
  assert (segment_of_media_record lecture.linked_db (segment1_id l) 10%N
          ∨ segment_of_media_record lecture.linked_db (segment2_id l) 10%N) as Hseg.
  { right. left. exists example.slide. split; [by left|done]. }
  split; [done|].
  exact (delete_then_get_links lecture.linked_db 10%N 100%N l Hids Hl eq_refl
           ltac:(discriminate) ltac:(discriminate) Hseg).
Defined.

(** The link of content 100 in the linked store: a document segment and a
    video segment. *)
Lemma get_links_result_shape_witness :
  let pairs :=
    [{| segment1 := normalized_segment (segment_document_result example.slide);
        segment2 := normalized_segment (segment_video_result example.frame) |}] in
  get_media_record_links_for_content example.linked_db 100%N = Ok pairs
  ∧ Forall (λ p,
              (document_shaped (segment1 p) ∨ video_shaped (segment1 p))
              ∧ (document_shaped (segment2 p) ∨ video_shaped (segment2 p))) pairs.
Proof.
  intros pairs.
  assert (get_media_record_links_for_content example.linked_db 100%N = Ok pairs)
    as Hpairs by reflexivity.
  split; [done|].
  exact (get_links_result_shape example.linked_db 100%N pairs Hpairs).
Defined.

(** A video and a document are queued; two passes of the worker ingest
    both. *)
Lemma worker_drains_queue_witness :
  let events := [Put (example.ingest 20); Put (example.ingest 10)] in
  let s := @run example.collaborators (init example.empty_db) events in
  let s' := @run example.collaborators s
              (replicate (length (_background_task_queue s)) Worker) in
  (_background_task_thread s = Running
   ∧ _keep_background_task_thread_alive s = true
   ∧ (∀ x db', x ∈ _background_task_queue s →
               (@run_task example.collaborators (task x) db').2 = Ok ()))
  ∧ _background_task_queue s' = []
  ∧ _background_task_thread s' = Running
  ∧ ∃ new,
      executed s' = executed s ++ new
      ∧ new.*1 ≡ₚ _background_task_queue s
      ∧ Forall (λ e, e.2 = Ok ()) new.
Proof.
  intros events s s'.
  assert (∀ x db', x ∈ _background_task_queue s →
                   (@run_task example.collaborators (task x) db').2 = Ok ()) as Hok.
  { intros x db' Hx. apply elem_of_cons in Hx as [->|Hx%list_elem_of_singleton].
    - reflexivity.
    - subst x. reflexivity. }
  split; [done|].
  exact (@worker_drains_queue example.collaborators example.empty_db events
           eq_refl eq_refl Hok).
Defined.

(** The flag was cleared with document 10 still queued: the worker returns
    and the document is never ingested. *)
Lemma cleared_flag_stops_worker_witness :
  let events := [Worker; Put (example.ingest 20); Worker] in
  _keep_background_task_thread_alive lecture.stopping = false
  ∧ (_background_task_thread lecture.stopping = Running →
     _background_task_thread
       (@_background_task_runner example.collaborators lecture.stopping) = Returned
     ∧ _background_task_queue
         (@_background_task_runner example.collaborators lecture.stopping)
       = _background_task_queue lecture.stopping)
  ∧ executed (@run example.collaborators lecture.stopping events)
    = executed lecture.stopping
  ∧ _db_conn (@run example.collaborators lecture.stopping events)
    = _db_conn lecture.stopping.
Proof.
  intros events. split; [done|].
  exact (@cleared_flag_stops_worker example.collaborators lecture.stopping events
           eq_refl).
Defined.

(** Document 10 is enqueued on the fresh service and the worker makes one
    pass. *)
Lemma enqueue_ingest_then_worker_witness :
  let s := init example.empty_db in
  let item := {| task := IngestMediaRecord 10%N; priority := 0 |} in
  let outcome := @ingest_media_record_task example.collaborators 10%N (_db_conn s) in
  let s' := @_background_task_runner example.collaborators
              (enqueue_ingest_media_record_task s 10%N) in
  (_background_task_queue s = []
   ∧ _background_task_thread s = Running
   ∧ _keep_background_task_thread_alive s = true)
  ∧ _db_conn s' = outcome.1
  ∧ executed s' = executed s ++ [(item, outcome.2)]
  ∧ _background_task_queue s' = []
  ∧ _background_task_thread s'
    = match outcome.2 with Ok _ => Running | Raise e => Died e end.
Proof.
  intros s item outcome s'. split; [done|].
  exact (@enqueue_ingest_then_worker example.collaborators s 10%N
           eq_refl eq_refl eq_refl).
Defined.

(** The lecture file: three pages and three thumbnails; only the first page
    has text. *)
Lemma process_from_io_pages_witness :
  length lecture.contents ≤ length lecture.page_images
  ∧ ∃ pages,
      PdfProcessor.process_from_io lecture.strip lecture.page_images lecture.contents
      = Ok {| PdfProcessor.pages := pages |}
      ∧ Forall (PdfProcessor.page_of lecture.strip lecture.page_images lecture.contents)
          pages
      ∧ StronglySorted lt (PdfProcessor.page_number <$> pages)
      ∧ ∀ i content, lecture.contents !! i = Some (Some content) →
          lecture.strip content ≠ "" →
          i ∈ PdfProcessor.page_number <$> pages.
Proof.
  assert (length lecture.contents ≤ length lecture.page_images) as Hlen
    by (simpl; lia).
  split; [done|].
  exact (process_from_io_pages lecture.strip lecture.page_images lecture.contents Hlen).
Defined.

(** The lecture file with the thumbnail of its first page missing. *)
Lemma process_from_io_missing_thumbnail_witness :
  (lecture.contents !! 0 = Some (Some "  Gradient descent  ")
   ∧ lecture.strip "  Gradient descent  " ≠ ""
   ∧ length (@nil string) ≤ 0)
  ∧ PdfProcessor.process_from_io lecture.strip (@nil string) lecture.contents
    = Raise IndexError.
Proof.
  assert (lecture.strip "  Gradient descent  " ≠ "") as Htext by discriminate.
  assert (length (@nil string) ≤ 0) as Hlen by (simpl; lia).
  split; [done|].
  exact (process_from_io_missing_thumbnail lecture.strip (@nil string) lecture.contents
           0 "  Gradient descent  " eq_refl Htext Hlen).
Defined.
